(** * learnos: SM-2 review scheduling and semantic note ranking

    A shallow embedding of the two algorithmic parts of the learnos server:

    - the SM-2 transition of [POST /api/flashcards/review] (server/routes.ts),
      together with the storage calls around it (server/storage.ts);
    - [cosineSimilarity] (server/gemini.ts) and the two ranking pipelines built
      on it in [POST /api/chat] and [POST /api/search];
    - the review streak and weekly counts of [getDashboardStats]
      (server/storage.ts), and the tag input of the create dialogs (client).

    JavaScript numbers are read in two ways.  The properties of the formulas
    (bounds, order, invariants) are stated over exact numbers: the scheduler
    only adds, multiplies, compares and rounds decimal literals, so its
    numbers are rationals ([Q], which computes); the ranker takes square
    roots, so its numbers are reals ([R]).  Where a rounded value itself is
    at stake (the interval [Math.round(interval * easeFactor)]), the
    transition is evaluated in binary64 ([Binary64], over primitive floats),
    as the server does.  Integer columns of the schema ([interval],
    [repetitions], [quality]) are [Z], and the database refuses to store a
    value outside 32 bits.  Timestamps are milliseconds in [Z]. *)

From Stdlib Require Import Floats.
From Stdlib Require Import ZArith QArith Qround Qminmax Qpower Lia Lqa.
From Stdlib Require Import Reals Lra Sorted.
From stdpp Require Import gmap strings list sorting.

(** ** The scheduler *)

Module Scheduler.

Local Open Scope Z_scope.

(** The three spaced-repetition columns of a [flashcards] row that the review
    route destructures ([let { easeFactor, interval, repetitions } = flashcard]). *)
Record RepetitionState : Type := {
  easeFactor : Q;
  interval : Z;
  repetitions : Z
}.

(** Column defaults of the schema: [easeFactor] 2.5, [interval] 0,
    [repetitions] 0. *)
Definition default_state : RepetitionState :=
  {| easeFactor := 2.5; interval := 0; repetitions := 0 |}.

(** [Math.round]: the nearest integer, halves rounded towards plus infinity. *)
Definition Math_round (x : Q) : Z := Qfloor (x + 0.5).

(** The body of the route between the destructuring and the storage calls:
    the interval and repetition count are chosen first, from the stored ease
    factor, and the ease factor is updated afterwards. *)
Definition sm2 (card : RepetitionState) (q : Z) : RepetitionState :=
  let easeFactor0 := easeFactor card in
  let interval0 := interval card in
  let repetitions0 := repetitions card in
  let '(interval1, repetitions1) :=
    if 3 <=? q then
      ((if repetitions0 =? 0 then 1
        else if repetitions0 =? 1 then 6
        else Math_round (inject_Z interval0 * easeFactor0)),
       repetitions0 + 1)
    else
      (1, 0) in
  {| easeFactor :=
       Qmax 1.3 (easeFactor0
                 + (0.1 - (5 - inject_Z q) * (0.08 + (5 - inject_Z q) * 0.02)));
     interval := interval1;
     repetitions := repetitions1 |}.

(** A [flashcards] row.  The spaced-repetition columns are kept together in
    [sr]; [nextReview] and [lastReviewed] are timestamps, the latter nullable. *)
Record Flashcard : Type := {
  id : string;
  front : string;
  back : string;
  sr : RepetitionState;
  nextReview : Z;
  lastReviewed : option Z
}.

(** A [reviews] row. *)
Record Review : Type := {
  flashcardId : string;
  userId : string;
  quality : Z;
  reviewedAt : Z
}.

(** The two tables the review route touches. *)
Record Storage : Type := {
  flashcards : gmap string Flashcard;
  reviews : list Review
}.

Definition getFlashcard (fid : string) (db : Storage) : option Flashcard :=
  flashcards db !! fid.

(** The columns [interval], [repetitions] and [quality] are declared
    [integer]: the database takes a value from -2^31 to 2^31 - 1 and fails the
    query on any other. *)
Definition int4 (z : Z) : bool := (-2147483648 <=? z) && (z <=? 2147483647).

(** The value of the [quality] field of a request body, when it is there: an
    integer or [null].  [Number(null)] is 0. *)
Inductive JsonValue : Type :=
  | JsonNull
  | JsonNumber (z : Z).

Definition Number (quality : JsonValue) : Z :=
  match quality with
  | JsonNull => 0
  | JsonNumber z => z
  end.

(** The request body [{ flashcardId, quality }]; [None] is [undefined]. *)
Record ReviewBody : Type := {
  body_flashcardId : option string;
  body_quality : option JsonValue
}.

Inductive Response : Type :=
  | Json (card : option Flashcard)   (* res.json(updated) *)
  | Status400                        (* "Flashcard ID and quality are required" *)
  | Status404                        (* "Flashcard not found" *)
  | Status500.                       (* "Failed to review flashcard" *)

Definition msPerDay : Z := 86400000.

(** [nextReview.setDate(nextReview.getDate() + interval)]: the same local
    time [interval] calendar days later.  A day is taken as 86400000 ms,
    which it is on a server whose local time is UTC; across a daylight-saving
    change of the server's time zone the instant is an hour earlier or
    later. *)
Definition nextReviewDate (now interval1 : Z) : Z := now + interval1 * msPerDay.

Section Route.

(** Whether the driver and the database take a [Date] as the value of a
    [timestamp] column.  This is decided outside the files of the server (a
    date far enough in the future is refused), so it is a parameter. *)
Variable validTimestamp : Z -> bool.

(** [storage.updateFlashcard]: sets the given columns on the row with that
    id and returns the row; without such a row nothing changes.  [None]: the
    query throws, which it does when a value does not fit its column. *)
Definition updateFlashcard (fid : string) (st : RepetitionState)
    (next : Z) (last : Z) (db : Storage)
    : option (option Flashcard * Storage) :=
  if int4 (interval st) && int4 (repetitions st) && validTimestamp next then
    match flashcards db !! fid with
    | Some row =>
        let row' := {| id := id row; front := front row; back := back row;
                       sr := st; nextReview := next;
                       lastReviewed := Some last |} in
        Some (Some row',
              {| flashcards := <[fid := row']> (flashcards db);
                 reviews := reviews db |})
    | None => Some (None, db)
    end
  else None.

(** [storage.createReview]: appends one row.  [None]: the query throws. *)
Definition createReview (r : Review) (db : Storage) : option Storage :=
  if int4 (quality r) then
    Some {| flashcards := flashcards db; reviews := reviews db ++ [r] |}
  else None.

(** [app.post("/api/flashcards/review", ...)], with the clock reading [now]
    and the demo user id passed in.  [!flashcardId] holds for [undefined]
    and for the empty string.  The card is rewritten before the review row
    is inserted; a query that throws is caught and answered with 500, and
    what was written before it stays written.  The new state is the exact
    [sm2]; the interval the server stores is the binary64 one of
    [Binary64.sm2], which is one less where the product falls short of a
    half by a rounding error. *)
Definition review_route (now : Z) (DEMO_USER_ID : string)
    (body : ReviewBody) (db : Storage) : Response * Storage :=
  match body_flashcardId body, body_quality body with
  | Some fid, Some quality =>
      if decide (fid = ""%string) then (Status400, db)
      else
        match getFlashcard fid db with
        | None => (Status404, db)
        | Some flashcard =>
            let q := Number quality in
            let st := sm2 (sr flashcard) q in
            let next := nextReviewDate now (interval st) in
            match updateFlashcard fid st next now db with
            | None => (Status500, db)
            | Some (updated, db1) =>
                match
                  createReview {| flashcardId := fid; userId := DEMO_USER_ID;
                                  quality := q; reviewedAt := now |} db1
                with
                | None => (Status500, db1)
                | Some db2 => (Json updated, db2)
                end
            end
        end
  | _, _ => (Status400, db)
  end.


End Route.

(** A database that takes the dates up to the year 9999. *)
Definition fourDigitYear (t : Z) : bool := t <? 253402300800000.

(** States a card can be in: the defaults, and whatever reviews with a
    quality from 0 to 5 lead to. *)
Inductive reachable : RepetitionState -> Prop :=
  | reachable_default : reachable default_state
  | reachable_review s q :
      reachable s -> 0 <= q <= 5 -> reachable (sm2 s q).

(** What holds of every state a card can be in. *)
Definition scheduled (s : RepetitionState) : Prop :=
  (1.3 <= easeFactor s)%Q /\ (repetitions s = 0 \/ 1 <= interval s).

(** The row the route writes: the new state and dates. *)
Definition reviewed (now : Z) (card : Flashcard) (q : Z) : Flashcard :=
  {| id := id card; front := front card; back := back card;
     sr := sm2 (sr card) q;
     nextReview := nextReviewDate now (interval (sm2 (sr card) q));
     lastReviewed := Some now |}.

End Scheduler.

(** ** The transition in binary64 *)

(** The same block of the route with JavaScript numbers as they are at run
    time: binary64 values, every operation rounded to nearest.  The integer
    columns are read as integers; [repetitions === 0], [repetitions === 1]
    and [repetitions += 1] are exact on them. *)
Module Binary64.

#[local] Set Warnings "-inexact-float".
Local Open Scope Z_scope.

(** An integer as a number: the nearest binary64 value, which is the integer
    itself up to 2^53 and so for every value of an integer column. *)
Definition of_Z (z : Z) : float :=
  SF2Prim (binary_normalize prec emax z 0 false).

(** The rational a finite number stands for; [None] for NaN and the
    infinities. *)
Definition value (x : float) : option Q :=
  match Prim2SF x with
  | S754_zero _ => Some 0%Q
  | S754_finite s m e => Some (inject_Z (cond_Zopp s (Z.pos m)) * 2 ^ e)%Q
  | _ => None
  end.

(** [Math.round]: of a finite number [m * 2^e], the integer
    [floor(m * 2^e + 0.5)], computed on the mantissa and exponent; the result
    is a number again, given here by the integer it is.  [None]: NaN and the
    infinities, which [Math.round] returns unchanged. *)
Definition Math_round (x : float) : option Z :=
  match Prim2SF x with
  | S754_zero _ => Some 0
  | S754_finite s m e =>
      let sm := cond_Zopp s (Z.pos m) in
      Some (if 0 <=? e then sm * 2 ^ e
            else (2 * sm + 2 ^ (- e)) `div` 2 ^ (1 - e))
  | _ => None
  end.

(** [Math.max] of two numbers: NaN if one of them is, and +0 above -0. *)
Definition Math_max (x y : float) : float :=
  if is_nan x || is_nan y then nan
  else if (x <? y)%float then y
  else if (y <? x)%float then x
  else if get_sign x then y else x.

(** [let { easeFactor, interval, repetitions } = flashcard]: a [real] column
    and two [integer] columns. *)
Record Card : Type := {
  easeFactor : float;
  interval : Z;
  repetitions : Z
}.

(** The three variables after the block.  [interval] is an integer or, from
    an ease factor that is not finite, no number that [Math_round] gives. *)
Record Assigned : Type := {
  easeFactor1 : float;
  interval1 : option Z;
  repetitions1 : Z
}.

(** The block between the destructuring and the storage calls, for
    [q = Number(quality)]. *)
Definition sm2 (card : Card) (q : float) : Assigned :=
  let easeFactor0 := easeFactor card in
  let interval0 := interval card in
  let repetitions0 := repetitions card in
  let '(interval1, repetitions1) :=
    if (3 <=? q)%float then
      ((if repetitions0 =? 0 then Some 1
        else if repetitions0 =? 1 then Some 6
        else Math_round (of_Z interval0 * easeFactor0)%float),
       repetitions0 + 1)
    else
      (Some 1, 0) in
  {| easeFactor1 :=
       Math_max 1.3 (easeFactor0
                     + (0.1 - (5 - q) * (0.08 + (5 - q) * 0.02)))%float;
     interval1 := interval1;
     repetitions1 := repetitions1 |}.

End Binary64.

(** ** The ranker *)

Module Ranker.

Local Open Scope R_scope.

#[export] Instance R_eq_dec : EqDecision R := Req_dec_T.
#[export] Instance Rlt_decision (x y : R) : Decision (x < y) := Rlt_dec x y.

(** One turn of the [for] loop of [cosineSimilarity]: the three running sums
    after index [i].  The loop only runs when both arrays have the same
    length, so [a[i]] and [b[i]] are always in range. *)
Definition loop_body (a b : list R) (acc : R * R * R) (i : nat) : R * R * R :=
  let '(dotProduct, normA, normB) := acc in
  (dotProduct + nth i a 0 * nth i b 0,
   normA + nth i a 0 * nth i a 0,
   normB + nth i b 0 * nth i b 0).

Definition cosineSimilarity (a b : list R) : R :=
  if decide (length a ≠ length b) then 0
  else
    let '(dotProduct, normA, normB) :=
      fold_left (loop_body a b) (seq 0 (length a)) (0, 0, 0) in
    if decide (normA = 0 ∨ normB = 0) then 0
    else dotProduct / (sqrt normA * sqrt normB).

(** The words of the specification: the dot product of two vectors, the
    magnitude of a vector, and the cosine of the angle between two vectors. *)
Fixpoint dot (a b : list R) : R :=
  match a, b with
  | x :: a', y :: b' => x * y + dot a' b'
  | _, _ => 0
  end.

Definition norm (a : list R) : R := sqrt (dot a a).

Definition cosine (a b : list R) : R := dot a b / (norm a * norm b).

(** A [notes] row; [embedding] is a nullable array column. *)
Record Note : Type := {
  id : string;
  title : string;
  content : string;
  tags : list string;
  embedding : option (list R)
}.

(** [note.embedding && note.embedding.length > 0] *)
Definition hasEmbedding (note : Note) : bool :=
  match embedding note with
  | Some (_ :: _) => true
  | _ => false
  end.

(** [Array.prototype.sort(compareFn)].  The sort is stable and puts [x] after
    [y] exactly when [compareFn(x, y) > 0]; it is written here as an insertion
    sort that inserts from the right end of the array. *)
Section Sort.
Context {A : Type} (compareFn : A -> A -> R).

Fixpoint insert (x : A) (l : list A) : list A :=
  match l with
  | [] => [x]
  | y :: l' =>
      if decide (0 < compareFn x y) then y :: insert x l' else x :: y :: l'
  end.

Definition sort (l : list A) : list A := foldr insert [] l.

End Sort.

(** *** Chat: context injection *)

(** [{ ...note, similarity }] *)
Record ScoredNote : Type := {
  note : Note;
  similarity : R
}.

Definition scoreNote (queryEmbedding : list R) (n : Note) : ScoredNote :=
  {| note := n;
     similarity := cosineSimilarity queryEmbedding (default [] (embedding n)) |}.

Definition relevantNotes (queryEmbedding : list R) (userNotes : list Note)
    : list ScoredNote :=
  take 3
    (sort (fun a b => similarity b - similarity a)
       (map (scoreNote queryEmbedding)
          (filter (fun n => hasEmbedding n = true) userNotes))).

(** The notes that reach the prompt: all of [relevantNotes] when its first
    element scores above 0.3, none otherwise. *)
Definition chatContext (queryEmbedding : list R) (userNotes : list Note)
    : list ScoredNote :=
  match relevantNotes queryEmbedding userNotes with
  | top :: rest => if decide (0.3 < similarity top) then top :: rest else []
  | [] => []
  end.

(** *** Search *)

Record SearchResult : Type := {
  res_id : string;
  res_type : string;
  res_title : string;
  res_content : string;
  res_similarity : R;
  res_tags : list string
}.

Definition searchResult (queryEmbedding : list R) (n : Note) : SearchResult :=
  {| res_id := id n;
     res_type := "note";
     res_title := title n;
     res_content := content n;
     res_similarity :=
       cosineSimilarity queryEmbedding (default [] (embedding n));
     res_tags := tags n |}.

Definition search (queryEmbedding : list R) (notes : list Note)
    : list SearchResult :=
  take 10
    (sort (fun a b => res_similarity b - res_similarity a)
       (filter (fun r => 0.3 < res_similarity r)
          (map (searchResult queryEmbedding)
             (filter (fun n => hasEmbedding n = true) notes)))).

(** Two notes used as a running example: with the query [1, 0] the first
    scores 1 and the second scores 0. *)
Definition noteA : Note :=
  {| id := "A"; title := "a"; content := "x"; tags := [];
     embedding := Some [1; 0] |}.

Definition noteB : Note :=
  {| id := "B"; title := "b"; content := "y"; tags := [];
     embedding := Some [0; 1] |}.

End Ranker.

(** ** Review histories *)

Module ReviewLog.

Import Scheduler.
Local Open Scope Z_scope.

(** The state of a card after the review route has run on it once for each
    quality of [qs], in order. *)
Definition reviewAll (s : RepetitionState) (qs : list Z) : RepetitionState :=
  fold_left sm2 qs s.

(** The number of qualities of 3 or more at the front of a list. *)
Fixpoint leadingPasses (qs : list Z) : Z :=
  match qs with
  | q :: qs' => if 3 <=? q then 1 + leadingPasses qs' else 0
  | [] => 0
  end.

End ReviewLog.

(** ** Dashboard statistics over the review log *)

Module Dashboard.

Import Scheduler.
Local Open Scope Z_scope.

(** A calendar date, as [DATE(reviewed_at)] and
    [toISOString().split('T')[0]] give it, is kept as the number of whole
    days since the epoch; two date strings are equal exactly when these
    numbers are. *)
Definition dateOf (t : Z) : Z := t `div` msPerDay.

(** [new Date(dateString).getTime()]: midnight of that day. *)
Definition getTime (date : Z) : Z := date * msPerDay.

(** [orderBy(desc(reviews.reviewedAt))] *)
Definition latestFirst (a b : Review) : Prop := reviewedAt b <= reviewedAt a.

#[export] Instance latestFirst_dec (a b : Review) : Decision (latestFirst a b) :=
  Z_le_dec (reviewedAt b) (reviewedAt a).

(** The [recentReviews] query of [getDashboardStats]: the dates of the
    user's reviews, latest first, cut at 30 rows.  Rows reviewed at the same
    instant have the same date, so their order does not show. *)
Definition recentReviews (user : string) (db : Storage) : list Z :=
  take 30
    (map (fun r => dateOf (reviewedAt r))
       (merge_sort latestFirst
          (filter (fun r => userId r = user) (reviews db)))).

(** [[...new Set(dates)]]: each value once, at its first position. *)
Fixpoint dedupe (seen : list Z) (dates : list Z) : list Z :=
  match dates with
  | [] => []
  | d :: dates' =>
      if decide (d ∈ seen) then dedupe seen dates'
      else d :: dedupe (d :: seen) dates'
  end.

Definition uniqueDates (dates : list Z) : list Z := dedupe [] dates.

(** The [for] loop of the streak: [prev] is [uniqueDates[i - 1]], the list
    starts at [uniqueDates[i]]. *)
Fixpoint streakLoop (prev : Z) (rest : list Z) (streak : Z) : Z :=
  match rest with
  | [] => streak
  | curr :: rest' =>
      let diffDays := (getTime prev - getTime curr) `div` msPerDay in
      if decide (diffDays = 1) then streakLoop curr rest' (streak + 1)
      else streak
  end.

Definition streakOf (today : Z) (unique : list Z) : Z :=
  match unique with
  | first :: rest =>
      if decide (first = today) then streakLoop first rest 1 else 0
  | [] => 0
  end.

(** [reviewStreak] of [getDashboardStats] at clock reading [now]. *)
Definition reviewStreak (now : Z) (user : string) (db : Storage) : Z :=
  streakOf (dateOf now) (uniqueDates (recentReviews user db)).

Section Weekly.

(** [date.setDate(date.getDate() - i)] on a [Date] holding the instant [now]:
    the instant that the local calendar of the server gives for [i] days
    earlier.  It depends on the time zone of the server, so it is a
    parameter. *)
Variable daysBefore : Z -> Z -> Z.

(** [weeklyReviews] of [getDashboardStats]: for [i] from 6 down to 0, the
    number of recent reviews whose date is the date of the instant [i] days
    before [now]. *)
Definition weeklyCounts (now : Z) (dates : list Z) : list nat :=
  map (fun i => length (filter (fun d => d = dateOf (daysBefore now i)) dates))
    [6; 5; 4; 3; 2; 1; 0].

Definition weeklyReviews (now : Z) (user : string) (db : Storage) : list nat :=
  weeklyCounts now (recentReviews user db).

End Weekly.

(** [daysBefore] on a server whose local time is UTC: every day has
    86400000 ms. *)
Definition utcDaysBefore (now i : Z) : Z := now - i * msPerDay.

End Dashboard.

(** ** Tag input of the create dialogs *)

Module Tags.

Local Open Scope N_scope.

(** A JavaScript string is kept as the list of its UTF-16 code units. *)
Definition comma : N := 44.

(** The code units [String.prototype.trim] strips: the WhiteSpace and
    LineTerminator code points of ECMAScript (tab, LF, VT, FF, CR, space,
    NBSP, U+1680, U+2000 to U+200A, U+2028, U+2029, U+202F, U+205F, U+3000
    and U+FEFF). *)
Definition isWhiteSpace (c : N) : bool :=
  bool_decide
    (c ∈ [9; 10; 11; 12; 13; 32; 160; 5760;
          8192; 8193; 8194; 8195; 8196; 8197; 8198; 8199; 8200; 8201; 8202;
          8232; 8233; 8239; 8287; 12288; 65279]).

(** [s.split(sep)] for a one-unit separator: the pieces between the
    separators; the empty string gives one empty piece. *)
Fixpoint split (sep : N) (s : list N) : list (list N) :=
  match s with
  | [] => [[]]
  | c :: s' =>
      if decide (c = sep) then [] :: split sep s'
      else
        match split sep s' with
        | piece :: rest => (c :: piece) :: rest
        | [] => [[c]]
        end
  end.

Fixpoint trimStart (s : list N) : list N :=
  match s with
  | c :: s' => if isWhiteSpace c then trimStart s' else s
  | [] => []
  end.

(** [t.trim()] *)
Definition trim (s : list N) : list N :=
  reverse (trimStart (reverse (trimStart s))).

(** [data.tags ? data.tags.split(",").map((t) => t.trim()).filter(Boolean) : []]
    of both create dialogs; [None] is an undefined field, and the empty
    string is falsy like it. *)
Definition parseTags (tags : option (list N)) : list (list N) :=
  match tags with
  | Some (c :: s) =>
      filter (fun t => t ≠ []) (map trim (split comma (c :: s)))
  | _ => []
  end.

(** The pieces written one after the other with a comma between them. *)
Fixpoint joinPieces (pieces : list (list N)) : list N :=
  match pieces with
  | [] => []
  | [p] => p
  | p :: rest => p ++ comma :: joinPieces rest
  end.

(** A tag as typed: the tag itself between two runs of white space. *)
Record Typed : Type := {
  before : list N;
  tag : list N;
  after : list N
}.

Definition typed (p : Typed) : list N := before p ++ tag p ++ after p.

Definition blank (s : list N) : Prop := Forall (fun c => isWhiteSpace c = true) s.

(** Neither a comma inside nor white space at either end. *)
Definition clean (t : list N) : Prop :=
  (comma ∉ t)
  /\ (forall c, head t = Some c -> isWhiteSpace c = false)
  /\ (forall c, last t = Some c -> isWhiteSpace c = false).

End Tags.

(** ** Properties of the scheduler *)

Module SchedulerProofs.

Import Scheduler.
Local Open Scope Z_scope.

Lemma sm2_easeFactor (s : RepetitionState) (q : Z) :
  easeFactor (sm2 s q) =
  Qmax 1.3 (easeFactor s
            + (0.1 - (5 - inject_Z q) * (0.08 + (5 - inject_Z q) * 0.02))).
Proof. unfold sm2. destruct (3 <=? q); reflexivity. Qed.

Lemma sm2_fail (s : RepetitionState) (q : Z) :
  q < 3 -> interval (sm2 s q) = 1 /\ repetitions (sm2 s q) = 0.
Proof.
  intros Hq. unfold sm2.
  destruct (Z.leb_spec 3 q) as [Hle | _]; [lia | split; reflexivity].
Qed.

Lemma sm2_pass (s : RepetitionState) (q : Z) :
  3 <= q ->
  interval (sm2 s q) =
    (if repetitions s =? 0 then 1
     else if repetitions s =? 1 then 6
     else Math_round (inject_Z (interval s) * easeFactor s))
  /\ repetitions (sm2 s q) = repetitions s + 1.
Proof.
  intros Hq. unfold sm2.
  destruct (Z.leb_spec 3 q) as [_ | Hlt]; [split; reflexivity | lia].
Qed.

Lemma easeFactor_floor (s : RepetitionState) (q : Z) :
  (1.3 <= easeFactor (sm2 s q))%Q.
Proof. rewrite sm2_easeFactor. apply Q.le_max_l. Qed.

Lemma Math_round_ge_1 (x : Q) : (1.3 <= x)%Q -> 1 <= Math_round x.
Proof.
  intros Hx. unfold Math_round.
  change 1 with (Qfloor (1.3 + 0.5)).
  apply Qfloor_resp_le. Lqa.lra.
Qed.

Lemma scaled_ease_ge (i : Z) (e : Q) :
  1 <= i -> (1.3 <= e)%Q -> (1.3 <= inject_Z i * e)%Q.
Proof.
  intros Hi He. rewrite Zle_Qle in Hi.
  change (inject_Z 1) with 1%Q in Hi. Lqa.nra.
Qed.

(** The ease adjustment grows with the quality on the whole range up to 5. *)
Lemma ease_delta_mono (x y : Q) :
  (x <= y)%Q -> (y <= 5)%Q ->
  (0.1 - (5 - x) * (0.08 + (5 - x) * 0.02)
   <= 0.1 - (5 - y) * (0.08 + (5 - y) * 0.02))%Q.
Proof. intros Hxy Hy. Lqa.nra. Qed.

Lemma ease_delta_fail (x : Q) :
  (x <= 2)%Q -> (0.1 - (5 - x) * (0.08 + (5 - x) * 0.02) <= -0.32)%Q.
Proof. intros Hx. Lqa.nra. Qed.

Lemma sm2_interval_ge_1 (s : RepetitionState) (q : Z) :
  scheduled s -> 1 <= interval (sm2 s q).
Proof.
  intros [He Hi].
  destruct (Z_lt_le_dec q 3) as [Hq | Hq].
  - destruct (sm2_fail s q Hq) as [-> _]. lia.
  - destruct (sm2_pass s q Hq) as [-> _].
    destruct (Z.eqb_spec (repetitions s) 0) as [_ | Hr0]; [lia |].
    destruct (Z.eqb_spec (repetitions s) 1) as [_ | Hr1]; [lia |].
    apply Math_round_ge_1, scaled_ease_ge; [lia | exact He].
Qed.

Lemma reachable_scheduled (s : RepetitionState) : reachable s -> scheduled s.
Proof.
  induction 1 as [| s q _ IH Hq].
  - split; [vm_compute; discriminate | left; reflexivity].
  - split; [apply easeFactor_floor | right; apply sm2_interval_ge_1, IH].
Qed.

Lemma review_route_found (validTimestamp : Z -> bool) (now : Z)
    (user fid : string) (quality : JsonValue) (db : Storage)
    (card : Flashcard) :
  fid ≠ ""%string ->
  flashcards db !! fid = Some card ->
  let q := Number quality in
  let st := sm2 (sr card) q in
  let card' := reviewed now card q in
  review_route validTimestamp now user
    {| body_flashcardId := Some fid; body_quality := Some quality |} db =
  if int4 (interval st) && int4 (repetitions st)
     && validTimestamp (nextReviewDate now (interval st))
  then
    if int4 q then
      (Json (Some card'),
       {| flashcards := <[fid := card']> (flashcards db);
          reviews := reviews db
                     ++ [ {| flashcardId := fid; userId := user;
                             quality := q; reviewedAt := now |} ] |})
    else
      (Status500,
       {| flashcards := <[fid := card']> (flashcards db);
          reviews := reviews db |})
  else (Status500, db).
Proof.
  intros Hfid Hcard q st card'. unfold review_route. simpl.
  destruct (decide (fid = ""%string)) as [Heq | _]; [contradiction |].
  unfold getFlashcard, updateFlashcard, createReview. rewrite Hcard.
  fold q. fold st.
  destruct (int4 (interval st) && int4 (repetitions st)
            && validTimestamp (nextReviewDate now (interval st)));
    [| reflexivity].
  simpl. destruct (int4 q); reflexivity.
Qed.

(** *** Input validation *)




(** *** The transition *)

(** C3 (counterexample): after quality 4, 4 and then 5 from the defaults, the
    interval is 15, while rounding 6 times the new ease factor (2.6) gives
    16. *)
Lemma third_review_uses_old_ease :
  let s2 := sm2 (sm2 default_state 4) 4 in
  let s3 := sm2 s2 5 in
  interval s2 = 6
  /\ interval s3 = 15
  /\ Math_round (6 * easeFactor s3) = 16
  /\ interval s3 ≠ Math_round (6 * easeFactor s3).
Proof. vm_compute. repeat split; discriminate. Qed.

(** C3 (amended): in that scenario the third review yields
    [interval = round(6 * easeFactor)] where [easeFactor] is the ease factor
    stored before the third review (2.5), that is 15; the ease factor after
    the third review is 2.6. *)
Theorem third_review_interval :
  let s1 := sm2 default_state 4 in
  let s2 := sm2 s1 4 in
  let s3 := sm2 s2 5 in
  (interval s1 = 1 /\ repetitions s1 = 1 /\ easeFactor s1 == 2.5)
  /\ (interval s2 = 6 /\ repetitions s2 = 2 /\ easeFactor s2 == 2.5)
  /\ interval s3 = Math_round (6 * easeFactor s2)
  /\ interval s3 = 15
  /\ repetitions s3 = 3
  /\ easeFactor s3 == 2.6.
Proof. vm_compute. repeat split. Qed.

(** C4: from a state with [easeFactor >= 1.3] and a quality in 0..5, the new
    ease factor is at least 1.3 and equals
    [max(1.3, easeFactor + (0.1 - (5 - q) * (0.08 + (5 - q) * 0.02)))]. *)
Theorem ease_factor_stays_above_floor (s : RepetitionState) (q : Z) :
  (1.3 <= easeFactor s)%Q ->
  0 <= q <= 5 ->
  (1.3 <= easeFactor (sm2 s q))%Q
  /\ easeFactor (sm2 s q) =
     Qmax 1.3 (easeFactor s
               + (0.1 - (5 - inject_Z q) * (0.08 + (5 - inject_Z q) * 0.02))).
Proof.
  intros _ _. split; [apply easeFactor_floor | apply sm2_easeFactor].
Qed.

Lemma ease_factor_stays_above_floor_witness :
  (1.3 <= easeFactor (sm2 default_state 0))%Q
  /\ easeFactor (sm2 default_state 0) =
     Qmax 1.3 (2.5 + (0.1 - (5 - 0) * (0.08 + (5 - 0) * 0.02))).
Proof.
  apply (ease_factor_stays_above_floor default_state 0).
  - vm_compute. discriminate.
  - lia.
Defined.

(** C5: with a quality of 0, 1 or 2 the transition sets [repetitions] to 0
    and [interval] to 1 whatever the prior state, and the ease factor is not
    reset: it is the prior one plus a negative adjustment (at most -0.32),
    floored at 1.3, so it does not exceed a prior ease factor that respected
    the floor and is strictly below one that was above the floor. *)
Theorem lapse_resets_progress (s : RepetitionState) (q : Z) :
  0 <= q <= 2 ->
  repetitions (sm2 s q) = 0
  /\ interval (sm2 s q) = 1
  /\ easeFactor (sm2 s q) =
     Qmax 1.3 (easeFactor s
               + (0.1 - (5 - inject_Z q) * (0.08 + (5 - inject_Z q) * 0.02)))
  /\ (0.1 - (5 - inject_Z q) * (0.08 + (5 - inject_Z q) * 0.02) <= -0.32)%Q
  /\ ((1.3 <= easeFactor s)%Q -> (easeFactor (sm2 s q) <= easeFactor s)%Q)
  /\ ((1.3 < easeFactor s)%Q -> (easeFactor (sm2 s q) < easeFactor s)%Q).
Proof.
  intros Hq.
  destruct (sm2_fail s q ltac:(lia)) as [Hi Hr].
  assert (Hd : (0.1 - (5 - inject_Z q) * (0.08 + (5 - inject_Z q) * 0.02)
                <= -0.32)%Q).
  { apply ease_delta_fail. change 2%Q with (inject_Z 2).
    rewrite <- Zle_Qle. lia. }
  repeat split; try assumption.
  - apply sm2_easeFactor.
  - intros He. rewrite sm2_easeFactor. apply Q.max_lub; [exact He | Lqa.lra].
  - intros He. rewrite sm2_easeFactor.
    apply Q.max_lub_lt; Lqa.lra.
Qed.

Lemma lapse_resets_progress_witness :
  repetitions (sm2 {| easeFactor := 2.2; interval := 20; repetitions := 3 |} 1)
  = 0
  /\ interval (sm2 {| easeFactor := 2.2; interval := 20; repetitions := 3 |} 1)
     = 1.
Proof.
  destruct (lapse_resets_progress
              {| easeFactor := 2.2; interval := 20; repetitions := 3 |} 1
              ltac:(lia)) as (Hr & Hi & _).
  split; [exact Hr | exact Hi].
Defined.

(** C9: in every state reachable from the defaults by reviews with a quality
    in 0..5, a further such review produces an interval of at least one day,
    so the next review date computed from it is strictly later than the time
    of the review. *)
Theorem review_interval_at_least_one_day
    (s : RepetitionState) (q : Z) (now : Z) :
  reachable s ->
  0 <= q <= 5 ->
  1 <= interval (sm2 s q)
  /\ now < nextReviewDate now (interval (sm2 s q)).
Proof.
  intros Hs Hq.
  assert (Hi : 1 <= interval (sm2 s q))
    by (apply sm2_interval_ge_1, reachable_scheduled, Hs).
  split; [exact Hi |].
  unfold nextReviewDate, msPerDay. lia.
Qed.

Lemma review_interval_at_least_one_day_witness :
  1 <= interval (sm2 (sm2 (sm2 default_state 4) 4) 5)
  /\ 1000 < nextReviewDate 1000 (interval (sm2 (sm2 (sm2 default_state 4) 4) 5)).
Proof.
  apply (review_interval_at_least_one_day
           (sm2 (sm2 default_state 4) 4) 5 1000).
  - apply reachable_review; [| lia].
    apply reachable_review; [| lia].
    apply reachable_default.
  - lia.
Defined.

(** C10: for a fixed prior state with [easeFactor >= 1.3], the ease factor
    after the review does not decrease when the quality grows within 0..5. *)
Theorem ease_factor_monotone_in_quality (s : RepetitionState) (q1 q2 : Z) :
  (1.3 <= easeFactor s)%Q ->
  0 <= q1 -> q1 <= q2 -> q2 <= 5 ->
  (easeFactor (sm2 s q1) <= easeFactor (sm2 s q2))%Q.
Proof.
  intros _ _ H12 H2. rewrite !sm2_easeFactor.
  apply Q.max_le_compat_l. apply Qplus_le_r.
  apply ease_delta_mono.
  - rewrite <- Zle_Qle. exact H12.
  - change 5%Q with (inject_Z 5). rewrite <- Zle_Qle. exact H2.
Qed.

Lemma ease_factor_monotone_in_quality_witness :
  (easeFactor (sm2 default_state 2) <= easeFactor (sm2 default_state 5))%Q.
Proof.
  apply (ease_factor_monotone_in_quality default_state 2 5).
  - vm_compute. discriminate.
  - lia.
  - lia.
  - lia.
Defined.

End SchedulerProofs.

(** ** The pass branch in binary64 *)

Module Binary64Proofs.

Import Binary64.
#[local] Set Warnings "-inexact-float".
Local Open Scope Z_scope.

Lemma floor_div_nearest (a p : Z) :
  0 < p ->
  (inject_Z ((2 * a + p) `div` (2 * p)) <= inject_Z a / inject_Z p + 0.5
   /\ inject_Z a / inject_Z p + 0.5
      < inject_Z ((2 * a + p) `div` (2 * p)) + 1)%Q.
Proof.
  intros Hp.
  pose proof (Z.div_mod (2 * a + p) (2 * p) ltac:(lia)) as Hdm.
  pose proof (Z.mod_pos_bound (2 * a + p) (2 * p) ltac:(lia)) as Hr.
  set (n := (2 * a + p) `div` (2 * p)) in *.
  assert (Hlo : 2 * p * n <= 2 * a + p) by lia.
  assert (Hhi : 2 * a + p < 2 * p * n + 2 * p) by lia.
  clearbody n. clear Hdm Hr.
  assert (HpQ : (0 < inject_Z p)%Q)
    by (change 0%Q with (inject_Z 0); rewrite <- Zlt_Qlt; exact Hp).
  assert (Heq : (inject_Z a / inject_Z p + 0.5
                 == (2 * inject_Z a + inject_Z p) / (2 * inject_Z p))%Q)
    by (field; intros E; rewrite E in HpQ; apply (Qlt_irrefl 0), HpQ).
  rewrite Heq. clear Heq.
  rewrite Zle_Qle in Hlo. rewrite Zlt_Qlt in Hhi.
  repeat (rewrite inject_Z_plus in Hlo || rewrite inject_Z_mult in Hlo).
  repeat (rewrite inject_Z_plus in Hhi || rewrite inject_Z_mult in Hhi).
  change (inject_Z 2) with 2%Q in Hlo, Hhi.
  split.
  - apply Qle_shift_div_l; [Lqa.lra | Lqa.nra].
  - apply Qlt_shift_div_r; [Lqa.lra | Lqa.nra].
Qed.

(** [Math_round] gives the integer [n] with [n <= x + 0.5 < n + 1]: the
    nearest integer, a half going up. *)
Lemma Math_round_nearest (x : float) (n : Z) (v : Q) :
  Math_round x = Some n -> value x = Some v ->
  (inject_Z n <= v + 0.5 /\ v + 0.5 < inject_Z n + 1)%Q.
Proof.
  unfold Math_round, value.
  destruct (Prim2SF x) as [sg | sg | | sg m e]; try discriminate.
  - intros [= <-] [= <-]. split; vm_compute; congruence.
  - set (sm := cond_Zopp sg (Z.pos m)).
    intros [= <-] [= <-].
    destruct (Z.leb_spec 0 e) as [He | He].
    + assert (Hv : (inject_Z sm * 2 ^ e == inject_Z (sm * 2 ^ e))%Q).
      { rewrite inject_Z_mult, (Zpower_Qpower 2 e He). reflexivity. }
      rewrite Hv. split; Lqa.lra.
    + assert (Hp : 0 < 2 ^ (- e)) by (apply Z.pow_pos_nonneg; lia).
      replace (2 ^ (1 - e)) with (2 * 2 ^ (- e))
        by (rewrite <- Z.pow_succ_r by lia; f_equal; lia).
      assert (Hv : (inject_Z sm * 2 ^ e
                    == inject_Z sm / inject_Z (2 ^ (- e)))%Q).
      { replace e with (- - e) at 1 by lia.
        rewrite Qpower_opp, (Zpower_Qpower 2 (- e)) by lia. reflexivity. }
      rewrite Hv. apply floor_div_nearest, Hp.
Qed.

Lemma Math_round_finite (x : float) :
  is_Some (value x) -> is_Some (Math_round x).
Proof.
  unfold Math_round, value.
  destruct (Prim2SF x); intros [v Hv]; try discriminate; eauto.
Qed.

(** C6: with a quality of 3 or more, the new interval is 1 when the prior
    repetition count is 0, 6 when it is 1, and otherwise
    [Math.round(interval * easeFactor)] of the prior interval and ease
    factor, the product being the binary64 one: the integer [n] with
    [n <= product + 0.5 < n + 1], which exists whenever the product is
    finite.  The repetition count grows by exactly 1. *)
Theorem pass_schedule (card : Card) (q : float) :
  (3 <=? q)%float = true ->
  let new := sm2 card q in
  let product := (of_Z (interval card) * easeFactor card)%float in
  (repetitions card = 0 -> interval1 new = Some 1)
  /\ (repetitions card = 1 -> interval1 new = Some 6)
  /\ (repetitions card ≠ 0 -> repetitions card ≠ 1 ->
      interval1 new = Math_round product
      /\ (is_Some (value product) -> is_Some (interval1 new))
      /\ (forall n v,
            interval1 new = Some n -> value product = Some v ->
            (inject_Z n <= v + 0.5 /\ v + 0.5 < inject_Z n + 1)%Q))
  /\ repetitions1 new = repetitions card + 1.
Proof.
  intros Hq new product. subst new. unfold sm2. rewrite Hq. simpl.
  split; [intros ->; reflexivity |].
  split; [intros ->; reflexivity |].
  split; [| reflexivity].
  intros H0 H1.
  destruct (Z.eqb_spec (repetitions card) 0) as [E | _]; [contradiction |].
  destruct (Z.eqb_spec (repetitions card) 1) as [E | _]; [contradiction |].
  fold product.
  split; [reflexivity |].
  split; [apply Math_round_finite |].
  intros n v. apply Math_round_nearest.
Qed.

(** The state (2.3, 55, 5), reached from the defaults by the qualities 3, 2,
    3, 5, 5, 5, 5: the binary64 product 55 * 2.3 is just below 126.5, and the
    next interval is 126. *)
Lemma pass_schedule_witness :
  interval1
    (sm2 {| easeFactor := 2.3; interval := 55; repetitions := 5 |} 5) = Some 126
  /\ repetitions1
       (sm2 {| easeFactor := 2.3; interval := 55; repetitions := 5 |} 5) = 6.
Proof.
  destruct (pass_schedule
              {| easeFactor := 2.3; interval := 55; repetitions := 5 |} 5
              eq_refl) as (_ & _ & Hi & Hr).
  split; [| exact Hr].
  destruct (Hi ltac:(simpl; lia) ltac:(simpl; lia)) as (-> & _).
  reflexivity.
Defined.

End Binary64Proofs.


(** ** Properties of the ranker *)

Module RankerProofs.

Import Ranker.
Local Open Scope R_scope.

(** *** [cosineSimilarity] *)

(** The loop, started at index [length pa] with the sums of the prefixes
    [pa] and [pb] already taken, adds the sums of the remaining elements. *)
Lemma loop_sums (a : list R) :
  forall (pa pb b : list R) (d na nb : R),
    length pa = length pb ->
    length a = length b ->
    fold_left (loop_body (pa ++ a) (pb ++ b)) (seq (length pa) (length a))
      (d, na, nb)
    = (d + dot a b, na + dot a a, nb + dot b b).
Proof.
  induction a as [| x a IH]; intros pa pb [| y b] d na nb Hp Hab;
    try discriminate Hab.
  - simpl. rewrite !Rplus_0_r. reflexivity.
  - simpl in Hab. injection Hab as Hab.
    cbn [length seq fold_left]. unfold loop_body at 2.
    rewrite (nth_middle pa a x 0).
    rewrite Hp, (nth_middle pb b y 0), <- Hp.
    replace (S (length pa)) with (length (pa ++ [x]))
      by (rewrite length_app; simpl; lia).
    rewrite (cons_middle x pa a), (cons_middle y pb b).
    rewrite (app_assoc pa [x] a), (app_assoc pb [y] b).
    rewrite IH; [| rewrite !length_app; simpl; lia | exact Hab].
    simpl. rewrite !Rplus_assoc. reflexivity.
Qed.

Lemma loop_dot (a b : list R) :
  length a = length b ->
  fold_left (loop_body a b) (seq 0 (length a)) (0, 0, 0)
  = (dot a b, dot a a, dot b b).
Proof.
  intros Hab.
  pose proof (loop_sums a [] [] b 0 0 0 eq_refl Hab) as H.
  simpl in H. rewrite H, !Rplus_0_l. reflexivity.
Qed.

Lemma cosineSimilarity_unfold (a b : list R) :
  cosineSimilarity a b =
  if decide (length a ≠ length b) then 0
  else if decide (dot a a = 0 ∨ dot b b = 0) then 0
       else dot a b / (sqrt (dot a a) * sqrt (dot b b)).
Proof.
  unfold cosineSimilarity.
  destruct (decide (length a ≠ length b)) as [Hne | Heq]; [reflexivity |].
  rewrite loop_dot; [reflexivity |].
  destruct (Nat.eq_dec (length a) (length b)); [assumption | contradiction].
Qed.

Lemma dot_self_nonneg (a : list R) : 0 <= dot a a.
Proof. induction a as [| x a IH]; simpl; [lra | nra]. Qed.

Lemma dot_self_zero (a : list R) : dot a a = 0 <-> Forall (fun x => x = 0) a.
Proof.
  induction a as [| x a IH]; simpl.
  - split; [constructor | reflexivity].
  - pose proof (dot_self_nonneg a) as Hn. rewrite Forall_cons, <- IH.
    split; [intros H; split; nra | intros [-> ->]; lra].
Qed.

Lemma norm_zero (a : list R) : norm a = 0 <-> dot a a = 0.
Proof.
  unfold norm. split.
  - apply sqrt_eq_0, dot_self_nonneg.
  - intros ->. apply sqrt_0.
Qed.

Lemma cosineSimilarity_zero_dot (a b : list R) :
  dot a b = 0 -> cosineSimilarity a b = 0.
Proof.
  intros H. rewrite cosineSimilarity_unfold, H.
  repeat case_decide; try reflexivity. unfold Rdiv. apply Rmult_0_l.
Qed.

Lemma cosineSimilarity_self (a : list R) :
  dot a a ≠ 0 -> cosineSimilarity a a = 1.
Proof.
  intros H. rewrite cosineSimilarity_unfold.
  destruct (decide (length a ≠ length a)) as [Hne | _]; [contradiction |].
  destruct (decide (dot a a = 0 ∨ dot a a = 0)) as [[H0 | H0] | _];
    try contradiction.
  rewrite sqrt_sqrt by apply dot_self_nonneg. field. exact H.
Qed.

(** C8: [cosineSimilarity] returns a number for every pair of vectors.  It is
    exactly 0 when the lengths differ and when either vector has zero norm
    (all its components are zero; the empty vector is one such); in every
    other case it is the cosine of the two vectors, their dot product divided
    by the product of their magnitudes. *)
Theorem cosineSimilarity_cases (a b : list R) :
  (length a ≠ length b -> cosineSimilarity a b = 0)
  /\ (norm a = 0 ∨ norm b = 0 -> cosineSimilarity a b = 0)
  /\ (a = [] ∨ b = [] -> cosineSimilarity a b = 0)
  /\ (length a = length b -> norm a ≠ 0 -> norm b ≠ 0 ->
      cosineSimilarity a b = cosine a b)
  /\ (norm a = 0 <-> Forall (fun x => x = 0) a)
  /\ ((length a ≠ length b ∨ norm a = 0 ∨ norm b = 0)
      ∨ (length a = length b /\ norm a ≠ 0 /\ norm b ≠ 0)).
Proof.
  assert (Hnorm : norm a = 0 ∨ norm b = 0 -> cosineSimilarity a b = 0).
  { rewrite !norm_zero. intros H. rewrite cosineSimilarity_unfold.
    repeat case_decide; try reflexivity. contradiction. }
  repeat split.
  - intros H. rewrite cosineSimilarity_unfold. case_decide; [reflexivity |].
    contradiction.
  - exact Hnorm.
  - intros [-> | ->]; apply Hnorm; [left | right]; apply sqrt_0.
  - intros Hlen Ha Hb. rewrite norm_zero in Ha, Hb.
    rewrite cosineSimilarity_unfold.
    destruct (decide (length a ≠ length b)) as [Hne | _]; [contradiction |].
    destruct (decide (dot a a = 0 ∨ dot b b = 0)) as [[H0 | H0] | _];
      try contradiction.
    reflexivity.
  - rewrite norm_zero. apply dot_self_zero.
  - rewrite norm_zero. apply dot_self_zero.
  - destruct (decide (length a = length b)) as [Hlen | Hlen]; [| auto].
    destruct (decide (norm a = 0)) as [Ha | Ha]; [auto |].
    destruct (decide (norm b = 0)) as [Hb | Hb]; [auto |].
    right. auto.
Qed.

Lemma cosineSimilarity_cases_witness :
  cosineSimilarity [1; 0] [1; 1] = cosine [1; 0] [1; 1]
  /\ cosineSimilarity [1; 0] [1] = 0
  /\ cosineSimilarity [1; 0] [0; 0] = 0.
Proof.
  destruct (cosineSimilarity_cases [1; 0] [1; 1]) as (_ & _ & _ & Hcos & _).
  destruct (cosineSimilarity_cases [1; 0] [1]) as (Hlen & _).
  destruct (cosineSimilarity_cases [1; 0] [0; 0]) as (_ & Hzero & _).
  split; [| split].
  - apply Hcos.
    + reflexivity.
    + rewrite norm_zero. simpl. lra.
    + rewrite norm_zero. simpl. lra.
  - apply Hlen. simpl. lia.
  - apply Hzero. right. rewrite norm_zero. simpl. lra.
Defined.

(** *** [sort] with a score-difference comparator *)

Section SortByScore.

Context {A : Type} (score : A -> R).

Abbreviation byScore := (fun a b : A => score b - score a).
Abbreviation desc := (fun x y : A => score y <= score x).

Lemma insert_Permutation (x : A) (l : list A) :
  insert byScore x l ≡ₚ x :: l.
Proof.
  induction l as [| y l IH]; simpl; [reflexivity |].
  case_decide; [| reflexivity].
  rewrite IH. apply Permutation_swap.
Qed.

Lemma sort_Permutation (l : list A) : sort byScore l ≡ₚ l.
Proof.
  induction l as [| x l IH]; simpl; [reflexivity |].
  rewrite insert_Permutation, IH. reflexivity.
Qed.

Lemma insert_sorted (x : A) (l : list A) :
  StronglySorted desc l -> StronglySorted desc (insert byScore x l).
Proof.
  induction 1 as [| y l Hs IH Hy]; simpl.
  - repeat constructor.
  - case_decide as Hlt.
    + constructor; [exact IH |].
      rewrite insert_Permutation. constructor; [simpl; lra | exact Hy].
    + constructor; [constructor; assumption |].
      constructor; [simpl; lra |].
      eapply Forall_impl; [exact Hy |]. simpl. intros z Hz. lra.
Qed.

Lemma sort_sorted (l : list A) : StronglySorted desc (sort byScore l).
Proof.
  induction l as [| x l IH]; simpl; [constructor | apply insert_sorted, IH].
Qed.

(** Stability: the elements with any one score keep their order. *)
Lemma insert_filter_score (s : R) (x : A) (l : list A) :
  filter (fun z => score z = s) (insert byScore x l)
  = filter (fun z => score z = s) (x :: l).
Proof.
  induction l as [| y l IH]; simpl; [reflexivity |].
  case_decide as Hlt; [| reflexivity].
  rewrite (filter_cons _ y), IH, !filter_cons.
  destruct (decide (score y = s)) as [Hy | Hy]; [| reflexivity].
  destruct (decide (score x = s)) as [Hx | Hx]; [lra | reflexivity].
Qed.

Lemma sort_stable (s : R) (l : list A) :
  filter (fun z => score z = s) (sort byScore l)
  = filter (fun z => score z = s) l.
Proof.
  induction l as [| x l IH]; simpl; [reflexivity |].
  rewrite insert_filter_score, !filter_cons, IH. reflexivity.
Qed.

Lemma take_sorted (k : nat) (l : list A) :
  StronglySorted desc l -> StronglySorted desc (take k l).
Proof.
  intros Hs. revert k.
  induction Hs as [| y l Hs IH Hy]; intros [| k]; simpl; try constructor.
  - apply IH.
  - apply Forall_take. exact Hy.
Qed.

Lemma take_filter_prefix (P : A -> Prop) `{!forall x, Decision (P x)}
    (k : nat) (l : list A) :
  filter P (take k l) `prefix_of` filter P l.
Proof.
  destruct (prefix_take l k) as [rest Hrest].
  exists (filter P rest). rewrite <- filter_app, <- Hrest. reflexivity.
Qed.

Lemma filter_Forall (P : A -> Prop) `{!forall x, Decision (P x)}
    (l : list A) :
  Forall P (filter P l).
Proof.
  induction l as [| x l IH]; [constructor |].
  rewrite filter_cons. case_decide; [constructor |]; assumption.
Qed.

(** Dropping the scores at or below a floor keeps, for every score, either
    all the elements with that score or none of them. *)
Lemma filter_score_floor (c s : R) (l : list A) :
  filter (fun z => score z = s) (filter (fun z => c < score z) l)
  = if decide (c < s) then filter (fun z => score z = s) l else [].
Proof.
  induction l as [| x l IH]; [case_decide; reflexivity |].
  rewrite (filter_cons (fun z => c < score z) x l).
  rewrite (filter_cons (fun z => score z = s) x l).
  destruct (decide (c < score x)) as [Hc | Hc].
  - rewrite filter_cons, IH.
    destruct (decide (score x = s)) as [Hs | Hs]; [| reflexivity].
    destruct (decide (c < s)) as [Hcs | Hcs]; [reflexivity | lra].
  - rewrite IH.
    destruct (decide (score x = s)) as [Hs | Hs]; [| reflexivity].
    destruct (decide (c < s)) as [Hcs | Hcs]; [lra | reflexivity].
Qed.

End SortByScore.

(** *** The two ranking pipelines *)

Lemma chatContext_cases (queryEmbedding : list R) (userNotes : list Note) :
  chatContext queryEmbedding userNotes = relevantNotes queryEmbedding userNotes
  ∨ chatContext queryEmbedding userNotes = [].
Proof.
  unfold chatContext.
  destruct (relevantNotes queryEmbedding userNotes) as [| top rest];
    [auto |]. case_decide; auto.
Qed.

Lemma relevantNotes_sorted (queryEmbedding : list R) (userNotes : list Note) :
  StronglySorted (fun x y => similarity y <= similarity x)
    (relevantNotes queryEmbedding userNotes).
Proof. apply take_sorted, sort_sorted. Qed.

Lemma score_noteA : similarity (scoreNote [1; 0] noteA) = 1.
Proof. apply cosineSimilarity_self. simpl. lra. Qed.

Lemma score_noteB : similarity (scoreNote [1; 0] noteB) = 0.
Proof. apply cosineSimilarity_zero_dot. simpl. lra. Qed.

Lemma chatContext_noteA_noteB :
  chatContext [1; 0] [noteA; noteB]
  = [scoreNote [1; 0] noteA; scoreNote [1; 0] noteB].
Proof.
  unfold chatContext, relevantNotes.
  rewrite filter_cons_True by reflexivity.
  rewrite filter_cons_True by reflexivity.
  cbn [filter list_filter map sort foldr insert].
  destruct (decide (0 < similarity (scoreNote [1; 0] noteB)
                        - similarity (scoreNote [1; 0] noteA))) as [H | _];
    [rewrite score_noteA, score_noteB in H; lra |].
  cbn [take].
  destruct (decide (0.3 < similarity (scoreNote [1; 0] noteA))) as [_ | H];
    [reflexivity | rewrite score_noteA in H; lra].
Qed.

(** C2 (counterexample): with the query [1, 0] and two notes whose embeddings
    are [1, 0] and [0, 1], the chat route passes both notes on, although the
    second one scores 0. *)
Lemma chat_context_keeps_low_scores :
  chatContext [1; 0] [noteA; noteB]
  = [scoreNote [1; 0] noteA; scoreNote [1; 0] noteB]
  /\ similarity (scoreNote [1; 0] noteB) = 0
  /\ ¬ Forall (fun r => 0.3 < similarity r)
        (chatContext [1; 0] [noteA; noteB]).
Proof.
  split; [exact chatContext_noteA_noteB | split; [exact score_noteB |]].
  rewrite chatContext_noteA_noteB. intros H.
  apply Forall_cons_1 in H as [_ H]. apply Forall_cons_1 in H as [H _].
  rewrite score_noteB in H. lra.
Qed.

(** C2 (amended): the search route returns at most 10 results and every one
    of them scores strictly above 0.3.  The chat route passes on at most 3
    notes; it passes notes on only when the best of them scores strictly
    above 0.3, and the notes after the first score no more than the first. *)
Theorem ranking_bounds (queryEmbedding : list R) (notes : list Note) :
  (length (search queryEmbedding notes) <= 10)%nat
  /\ Forall (fun r => 0.3 < res_similarity r) (search queryEmbedding notes)
  /\ (length (chatContext queryEmbedding notes) <= 3)%nat
  /\ (forall top rest,
        chatContext queryEmbedding notes = top :: rest ->
        0.3 < similarity top
        /\ Forall (fun r => similarity r <= similarity top) rest).
Proof.
  split; [| split; [| split]].
  - unfold search. apply firstn_le_length.
  - unfold search. apply Forall_take.
    rewrite (sort_Permutation res_similarity). apply filter_Forall.
  - destruct (chatContext_cases queryEmbedding notes) as [-> | ->];
      [apply firstn_le_length | simpl; lia].
  - intros top rest Hctx.
    pose proof (relevantNotes_sorted queryEmbedding notes) as Hs.
    unfold chatContext in Hctx.
    destruct (relevantNotes queryEmbedding notes) as [| t r];
      [discriminate Hctx |].
    case_decide as Htop; [| discriminate Hctx].
    injection Hctx as <- <-. split; [exact Htop |].
    apply StronglySorted_inv in Hs as [_ Hs]. exact Hs.
Qed.

Lemma ranking_bounds_witness :
  0.3 < similarity (scoreNote [1; 0] noteA)
  /\ Forall (fun r => similarity r <= similarity (scoreNote [1; 0] noteA))
       [scoreNote [1; 0] noteB].
Proof.
  destruct (ranking_bounds [1; 0] [noteA; noteB]) as (_ & _ & _ & Hchat).
  apply (Hchat (scoreNote [1; 0] noteA) [scoreNote [1; 0] noteB]).
  exact chatContext_noteA_noteB.
Defined.

(** C7: at both call sites the returned sequence is sorted non-increasing by
    similarity, and for every score the returned elements with that score
    are, in the same order, the first of the candidates with that score. *)
Theorem ranking_sorted_stable (queryEmbedding : list R) (notes : list Note) :
  (StronglySorted (fun x y => similarity y <= similarity x)
     (chatContext queryEmbedding notes)
   /\ forall s,
        filter (fun x => similarity x = s) (chatContext queryEmbedding notes)
        `prefix_of`
        filter (fun x => similarity x = s)
          (map (scoreNote queryEmbedding)
             (filter (fun n => hasEmbedding n = true) notes)))
  /\ (StronglySorted (fun x y => res_similarity y <= res_similarity x)
        (search queryEmbedding notes)
      /\ forall s,
           filter (fun x => res_similarity x = s) (search queryEmbedding notes)
           `prefix_of`
           filter (fun x => res_similarity x = s)
             (map (searchResult queryEmbedding)
                (filter (fun n => hasEmbedding n = true) notes))).
Proof.
  split; split.
  - destruct (chatContext_cases queryEmbedding notes) as [-> | ->];
      [apply relevantNotes_sorted | constructor].
  - intros s.
    destruct (chatContext_cases queryEmbedding notes) as [-> | ->];
      [| apply prefix_nil].
    unfold relevantNotes.
    etransitivity; [apply take_filter_prefix |].
    rewrite (sort_stable similarity). reflexivity.
  - unfold search. apply take_sorted, sort_sorted.
  - intros s. unfold search.
    etransitivity; [apply take_filter_prefix |].
    rewrite (sort_stable res_similarity), (filter_score_floor res_similarity).
    case_decide; [reflexivity | apply prefix_nil].
Qed.

End RankerProofs.

(** ** Further properties of the ranker *)

Module RankerFacts.

Import Ranker RankerProofs.
Local Open Scope R_scope.

(** *** Algebra of [cosineSimilarity] *)

Lemma dot_comm (a : list R) : forall b, dot a b = dot b a.
Proof.
  induction a as [| x a IH]; intros [| y b]; simpl; try reflexivity.
  rewrite IH. ring.
Qed.

Lemma dot_scale_l (k : R) (a : list R) :
  forall b, dot (map (Rmult k) a) b = k * dot a b.
Proof.
  induction a as [| x a IH]; intros [| y b]; simpl; try ring.
  rewrite IH. ring.
Qed.

Lemma dot_scale_self (k : R) (a : list R) :
  dot (map (Rmult k) a) (map (Rmult k) a) = k * k * dot a a.
Proof. induction a as [| x a IH]; simpl; [ring | rewrite IH; ring]. Qed.

(** Cauchy and Schwarz, for the truncating [dot]. *)
Lemma dot_square_le (a : list R) :
  forall b, dot a b * dot a b <= dot a a * dot b b.
Proof.
  induction a as [| x a IH]; intros [| y b]; simpl.
  - lra.
  - pose proof (dot_self_nonneg (y :: b)) as H. simpl in H. nra.
  - pose proof (dot_self_nonneg (x :: a)) as H. simpl in H. nra.
  - specialize (IH b).
    pose proof (dot_self_nonneg a) as HA. pose proof (dot_self_nonneg b) as HB.
    set (D := dot a b) in *. set (A := dot a a) in *. set (B := dot b b) in *.
    assert (Hmix : 2 * (x * y) * D <= x * x * B + y * y * A).
    { pose proof (sqrt_sqrt A HA) as HsA. pose proof (sqrt_sqrt B HB) as HsB.
      pose proof (sqrt_pos A) as HpA. pose proof (sqrt_pos B) as HpB.
      set (sa := sqrt A) in *. set (sb := sqrt B) in *.
      set (P := sa * sb).
      assert (HD : D * D <= P * P).
      { unfold P. replace ((sa * sb) * (sa * sb)) with ((sa * sa) * (sb * sb))
          by ring.
        rewrite HsA, HsB. exact IH. }
      assert (Hp : 0 <= P) by (apply Rmult_le_pos; assumption).
      assert (Hup : D <= P).
      { destruct (Rle_lt_dec D P) as [Hle | Hlt]; [exact Hle |].
        assert (0 < (D - P) * (D + P)) by (apply Rmult_lt_0_compat; lra).
        nra. }
      assert (Hlo : - P <= D).
      { destruct (Rle_lt_dec (- P) D) as [Hle | Hlt]; [exact Hle |].
        assert (0 < (- P - D) * (- D + P)) by (apply Rmult_lt_0_compat; lra).
        nra. }
      rewrite <- HsA, <- HsB.
      pose proof (Rle_0_sqr (x * sb - y * sa)) as H1.
      pose proof (Rle_0_sqr (x * sb + y * sa)) as H2.
      unfold Rsqr in H1, H2.
      destruct (Rle_lt_dec 0 (x * y)) as [Hxy | Hxy].
      - assert (0 <= (x * y) * (P - D)) by (apply Rmult_le_pos; lra).
        unfold P in *. nra.
      - assert (0 <= (- (x * y)) * (D + P)) by (apply Rmult_le_pos; lra).
        unfold P in *. nra. }
    nra.
Qed.

(** X1: the similarity does not depend on the order of its two arguments. *)
Theorem cosineSimilarity_sym (a b : list R) :
  cosineSimilarity a b = cosineSimilarity b a.
Proof.
  rewrite !cosineSimilarity_unfold, (dot_comm a b).
  rewrite (Rmult_comm (sqrt (dot a a))).
  destruct (decide (length a ≠ length b)) as [Hab | Hab],
           (decide (length b ≠ length a)) as [Hba | Hba];
    try reflexivity; try (exfalso; apply Hab; intros E; apply Hba; congruence);
    try (exfalso; apply Hba; intros E; apply Hab; congruence).
  destruct (decide (dot a a = 0 ∨ dot b b = 0)) as [H1 | H1],
           (decide (dot b b = 0 ∨ dot a a = 0)) as [H2 | H2];
    try reflexivity; tauto.
Qed.

(** X2: a vector that is not all zeros has similarity exactly 1 with
    itself. *)
Theorem cosineSimilarity_same_vector (a : list R) :
  ¬ Forall (fun x => x = 0) a -> cosineSimilarity a a = 1.
Proof.
  intros Hnz. apply cosineSimilarity_self.
  rewrite dot_self_zero. exact Hnz.
Qed.

Lemma cosineSimilarity_same_vector_witness :
  cosineSimilarity [3; 4] [3; 4] = 1.
Proof.
  apply (cosineSimilarity_same_vector [3; 4]).
  intros H. apply Forall_cons_1 in H as [H _]. lra.
Defined.

(** X3: the similarity always lies between -1 and 1. *)
Theorem cosineSimilarity_range (a b : list R) :
  -1 <= cosineSimilarity a b <= 1.
Proof.
  rewrite cosineSimilarity_unfold.
  destruct (decide (length a ≠ length b)) as [_ | _]; [lra |].
  destruct (decide (dot a a = 0 ∨ dot b b = 0)) as [_ | Hnz]; [lra |].
  pose proof (dot_self_nonneg a) as HA. pose proof (dot_self_nonneg b) as HB.
  pose proof (dot_square_le a b) as HCS.
  assert (HA' : 0 < dot a a).
  { destruct HA as [H | H]; [exact H | exfalso; apply Hnz; left; congruence]. }
  assert (HB' : 0 < dot b b).
  { destruct HB as [H | H]; [exact H | exfalso; apply Hnz; right; congruence]. }
  pose proof (sqrt_lt_R0 _ HA') as HsA. pose proof (sqrt_lt_R0 _ HB') as HsB.
  pose proof (sqrt_sqrt _ HA) as HqA. pose proof (sqrt_sqrt _ HB) as HqB.
  set (D := dot a b) in *. set (sa := sqrt (dot a a)) in *.
  set (sb := sqrt (dot b b)) in *. set (P := sa * sb).
  assert (HP : 0 < P) by (apply Rmult_lt_0_compat; assumption).
  assert (HD : D * D <= P * P).
  { unfold P. replace ((sa * sb) * (sa * sb)) with ((sa * sa) * (sb * sb))
      by ring.
    rewrite HqA, HqB. exact HCS. }
  assert (Hup : D <= P).
  { destruct (Rle_lt_dec D P) as [Hle | Hlt]; [exact Hle |].
    assert (0 < (D - P) * (D + P)) by (apply Rmult_lt_0_compat; lra). nra. }
  assert (Hlo : - P <= D).
  { destruct (Rle_lt_dec (- P) D) as [Hle | Hlt]; [exact Hle |].
    assert (0 < (- P - D) * (- D + P)) by (apply Rmult_lt_0_compat; lra).
    nra. }
  split.
  - apply (Rmult_le_reg_r P); [exact HP |].
    unfold Rdiv. rewrite Rmult_assoc, Rinv_l by lra. lra.
  - apply (Rmult_le_reg_r P); [exact HP |].
    unfold Rdiv. rewrite Rmult_assoc, Rinv_l by lra. lra.
Qed.

Lemma sqrt_scaled (k A : R) : 0 < k -> 0 <= A -> sqrt (k * k * A) = k * sqrt A.
Proof.
  intros Hk HA. rewrite sqrt_mult by nra. rewrite sqrt_square by lra.
  reflexivity.
Qed.

Lemma scaled_zero (k A : R) : 0 < k -> k * k * A = 0 <-> A = 0.
Proof.
  intros Hk. split; [| intros ->; ring].
  intros H. apply Rmult_integral in H as [Hkk | HA]; [| exact HA].
  apply Rmult_integral in Hkk as [Hk0 | Hk0]; lra.
Qed.

Lemma sqrt_dot_nonzero (a : list R) : dot a a ≠ 0 -> sqrt (dot a a) ≠ 0.
Proof.
  intros Hnz E. apply sqrt_eq_0 in E; [contradiction | apply dot_self_nonneg].
Qed.

Lemma cosineSimilarity_scale_l (k : R) (a b : list R) :
  0 < k -> cosineSimilarity (map (Rmult k) a) b = cosineSimilarity a b.
Proof.
  intros Hk. rewrite !cosineSimilarity_unfold.
  rewrite length_map, dot_scale_self, dot_scale_l.
  destruct (decide (length a ≠ length b)) as [_ | _]; [reflexivity |].
  destruct (decide (k * k * dot a a = 0 ∨ dot b b = 0)) as [H1 | H1],
           (decide (dot a a = 0 ∨ dot b b = 0)) as [H2 | H2];
    try reflexivity.
  - exfalso. apply H2. rewrite scaled_zero in H1 by exact Hk. exact H1.
  - exfalso. apply H1. rewrite scaled_zero by exact Hk. exact H2.
  - rewrite sqrt_scaled by (lra || apply dot_self_nonneg).
    assert (sqrt (dot a a) ≠ 0) by (apply sqrt_dot_nonzero; tauto).
    assert (sqrt (dot b b) ≠ 0) by (apply sqrt_dot_nonzero; tauto).
    field. repeat split; try assumption. lra.
Qed.

Lemma cosineSimilarity_scale_r (k : R) (a b : list R) :
  0 < k -> cosineSimilarity a (map (Rmult k) b) = cosineSimilarity a b.
Proof.
  intros Hk. rewrite !cosineSimilarity_unfold.
  rewrite length_map, dot_scale_self.
  rewrite (dot_comm a (map (Rmult k) b)), dot_scale_l, (dot_comm b a).
  destruct (decide (length a ≠ length b)) as [_ | _]; [reflexivity |].
  destruct (decide (dot a a = 0 ∨ k * k * dot b b = 0)) as [H1 | H1],
           (decide (dot a a = 0 ∨ dot b b = 0)) as [H2 | H2];
    try reflexivity.
  - exfalso. apply H2. rewrite scaled_zero in H1 by exact Hk. exact H1.
  - exfalso. apply H1. rewrite scaled_zero by exact Hk. exact H2.
  - rewrite sqrt_scaled by (lra || apply dot_self_nonneg).
    assert (sqrt (dot a a) ≠ 0) by (apply sqrt_dot_nonzero; tauto).
    assert (sqrt (dot b b) ≠ 0) by (apply sqrt_dot_nonzero; tauto).
    field. repeat split; try assumption. lra.
Qed.

(** X4: over exact reals, multiplying either vector by a positive factor
    leaves the similarity unchanged.  (In binary64 the two results can differ
    in the last bit.) *)
Theorem cosineSimilarity_scale (k : R) (a b : list R) :
  0 < k ->
  cosineSimilarity (map (Rmult k) a) b = cosineSimilarity a b
  /\ cosineSimilarity a (map (Rmult k) b) = cosineSimilarity a b.
Proof.
  intros Hk. split.
  - apply cosineSimilarity_scale_l, Hk.
  - apply cosineSimilarity_scale_r, Hk.
Qed.

Lemma cosineSimilarity_scale_witness :
  cosineSimilarity [1; 0] (map (Rmult 3) [1; 1]) = cosineSimilarity [1; 0] [1; 1].
Proof.
  apply (cosineSimilarity_scale 3 [1; 0] [1; 1]). lra.
Defined.

(** *** The pipelines *)

Abbreviation embedded := (filter (fun n : Note => hasEmbedding n = true)).

Lemma elem_of_map {A B : Type} (f : A -> B) (l : list A) (y : B) :
  y ∈ map f l <-> exists x, y = f x /\ x ∈ l.
Proof.
  rewrite list_elem_of_In, in_map_iff. split.
  - intros (x & <- & Hx). exists x. rewrite list_elem_of_In. auto.
  - intros (x & -> & Hx). exists x. rewrite <- list_elem_of_In. auto.
Qed.

Lemma elem_of_take_l {A : Type} (k : nat) (l : list A) (x : A) :
  x ∈ take k l -> x ∈ l.
Proof.
  intros H. rewrite <- (take_drop k l). apply elem_of_app. left. exact H.
Qed.

Lemma in_relevantNotes (q : list R) (notes : list Note) (r : ScoredNote) :
  r ∈ relevantNotes q notes ->
  exists n, n ∈ notes /\ hasEmbedding n = true /\ r = scoreNote q n.
Proof.
  unfold relevantNotes. intros H. apply elem_of_take_l in H.
  rewrite (sort_Permutation similarity) in H.
  apply elem_of_map in H as (n & -> & Hn).
  apply list_elem_of_filter in Hn as [He Hn]. eauto.
Qed.

Lemma in_chatContext (q : list R) (notes : list Note) (r : ScoredNote) :
  r ∈ chatContext q notes -> r ∈ relevantNotes q notes.
Proof.
  destruct (chatContext_cases q notes) as [-> | ->]; [auto |].
  intros H. apply elem_of_nil in H. contradiction.
Qed.

Lemma in_search (q : list R) (notes : list Note) (r : SearchResult) :
  r ∈ search q notes ->
  exists n, n ∈ notes /\ hasEmbedding n = true /\ r = searchResult q n
            /\ 0.3 < res_similarity r.
Proof.
  unfold search. intros H. apply elem_of_take_l in H.
  rewrite (sort_Permutation res_similarity) in H.
  apply list_elem_of_filter in H as [Hs H].
  apply elem_of_map in H as (n & -> & Hn).
  apply list_elem_of_filter in Hn as [He Hn]. eauto 6.
Qed.

(** X5: every search result is built from one of the given notes that has a
    non-empty embedding, carries that note's id, title, content and tags and
    its similarity to the query; the same holds for the notes passed to the
    chat prompt.  Notes without an embedding never appear. *)
Theorem results_come_from_embedded_notes
    (queryEmbedding : list R) (notes : list Note) :
  (forall r, r ∈ search queryEmbedding notes ->
     exists n e, n ∈ notes /\ embedding n = Some e /\ e ≠ []
       /\ res_id r = id n /\ res_title r = title n
       /\ res_content r = content n /\ res_tags r = tags n
       /\ res_similarity r = cosineSimilarity queryEmbedding e)
  /\ (forall r, r ∈ chatContext queryEmbedding notes ->
       exists e, note r ∈ notes /\ embedding (note r) = Some e /\ e ≠ []
         /\ similarity r = cosineSimilarity queryEmbedding e).
Proof.
  assert (Hemb : forall n, hasEmbedding n = true ->
            exists e, embedding n = Some e /\ e ≠ []).
  { intros n. unfold hasEmbedding.
    destruct (embedding n) as [[| x e] |]; try discriminate.
    intros _. exists (x :: e). split; [reflexivity | discriminate]. }
  split.
  - intros r Hr. apply in_search in Hr as (n & Hn & He & -> & _).
    destruct (Hemb n He) as (e & Heq & Hne). exists n, e.
    unfold searchResult. simpl. rewrite Heq. simpl. repeat split; auto.
  - intros r Hr. apply in_chatContext, in_relevantNotes in Hr
      as (n & Hn & He & ->).
    destruct (Hemb n He) as (e & Heq & Hne). exists e.
    unfold scoreNote. simpl. rewrite Heq. simpl. repeat split; auto.
Qed.

Lemma results_come_from_embedded_notes_witness :
  exists e, note (scoreNote [1; 0] noteA) ∈ [noteA; noteB]
    /\ embedding (note (scoreNote [1; 0] noteA)) = Some e /\ e ≠ []
    /\ similarity (scoreNote [1; 0] noteA) = cosineSimilarity [1; 0] e.
Proof.
  apply (proj2 (results_come_from_embedded_notes [1; 0] [noteA; noteB])).
  rewrite chatContext_noteA_noteB. apply list_elem_of_here.
Defined.

Lemma head_of_sorted {A : Type} (score : A -> R) (l : list A) (t : A)
    (rest : list A) :
  sort (fun a b => score b - score a) l = t :: rest ->
  forall x, x ∈ l -> score x <= score t.
Proof.
  intros Hs x Hx.
  pose proof (sort_sorted score l) as Hsorted.
  rewrite <- (sort_Permutation score), Hs in Hx. rewrite Hs in Hsorted.
  apply StronglySorted_inv in Hsorted as [_ Hall].
  apply elem_of_cons in Hx as [-> | Hx]; [lra |].
  rewrite Forall_forall in Hall. apply Hall, Hx.
Qed.

Lemma sort_nil_inv {A : Type} (score : A -> R) (l : list A) :
  sort (fun a b => score b - score a) l = [] -> l = [].
Proof.
  intros Hs. apply Permutation_nil_r. rewrite <- Hs.
  symmetry. apply sort_Permutation.
Qed.

(** X6: the chat route passes notes on exactly when some note with an
    embedding scores above 0.3 against the query, and the first note it
    passes on has the highest score of all notes with an embedding. *)
Theorem chat_context_gate (queryEmbedding : list R) (notes : list Note) :
  (chatContext queryEmbedding notes ≠ [] <->
   exists n, n ∈ notes /\ hasEmbedding n = true
     /\ 0.3 < similarity (scoreNote queryEmbedding n))
  /\ (forall top rest n,
        chatContext queryEmbedding notes = top :: rest ->
        n ∈ notes -> hasEmbedding n = true ->
        similarity (scoreNote queryEmbedding n) <= similarity top).
Proof.
  unfold chatContext, relevantNotes.
  destruct (sort (fun a b => similarity b - similarity a)
              (map (scoreNote queryEmbedding) (embedded notes)))
    as [| t S] eqn:Hs.
  - apply sort_nil_inv in Hs. simpl. split.
    + split; [intros H; contradiction |].
      intros (n & Hn & He & _).
      assert (Hin : scoreNote queryEmbedding n
                    ∈ map (scoreNote queryEmbedding) (embedded notes)).
      { apply elem_of_map. exists n. split; [reflexivity |].
        apply list_elem_of_filter. auto. }
      rewrite Hs in Hin. apply elem_of_nil in Hin. contradiction.
    + intros top rest n H. discriminate H.
  - pose proof (head_of_sorted similarity _ _ _ Hs) as Hmax.
    assert (Hscored : forall n, n ∈ notes -> hasEmbedding n = true ->
              similarity (scoreNote queryEmbedding n) <= similarity t).
    { intros n Hn He. apply Hmax, elem_of_map. exists n.
      split; [reflexivity |]. apply list_elem_of_filter. auto. }
    assert (Ht : exists n, n ∈ notes /\ hasEmbedding n = true
                   /\ t = scoreNote queryEmbedding n).
    { assert (Hin : t ∈ t :: S) by apply list_elem_of_here.
      rewrite <- Hs, (sort_Permutation similarity) in Hin.
      apply elem_of_map in Hin as (n & -> & Hn).
      apply list_elem_of_filter in Hn as [He Hn]. eauto. }
    cbn [take]. split.
    + destruct (decide (0.3 < similarity t)) as [Hgate | Hgate].
      * split; [| discriminate].
        intros _. destruct Ht as (n & Hn & He & ->). eauto.
      * split; [intros H; contradiction |].
        intros (n & Hn & He & Hsc). specialize (Hscored n Hn He). lra.
    + intros top rest n H Hn He.
      destruct (decide (0.3 < similarity t)); [| discriminate H].
      injection H as <- _. apply Hscored; assumption.
Qed.

Lemma chat_context_gate_witness :
  similarity (scoreNote [1; 0] noteB) <= similarity (scoreNote [1; 0] noteA).
Proof.
  apply (proj2 (chat_context_gate [1; 0] [noteA; noteB])
           (scoreNote [1; 0] noteA) [scoreNote [1; 0] noteB] noteB).
  - exact chatContext_noteA_noteB.
  - apply list_elem_of_further, list_elem_of_here.
  - reflexivity.
Defined.

(** X7: search returns the best candidates.  The number of results is the
    number of embedded notes scoring above 0.3, capped at 10, and a
    candidate scoring above 0.3 is left out only when 10 results are
    returned and each of them scores at least as much. *)
Theorem search_returns_best (queryEmbedding : list R) (notes : list Note) :
  length (search queryEmbedding notes)
  = Nat.min 10
      (length (filter (fun r => 0.3 < res_similarity r)
                 (map (searchResult queryEmbedding) (embedded notes))))
  /\ (forall c,
        c ∈ filter (fun r => 0.3 < res_similarity r)
              (map (searchResult queryEmbedding) (embedded notes)) ->
        c ∈ search queryEmbedding notes
        ∨ (length (search queryEmbedding notes) = 10%nat
           /\ Forall (fun r => res_similarity c <= res_similarity r)
                (search queryEmbedding notes))).
Proof.
  unfold search.
  set (cands := filter (fun r => 0.3 < res_similarity r)
                  (map (searchResult queryEmbedding) (embedded notes))).
  set (S := sort (fun a b => res_similarity b - res_similarity a) cands).
  assert (Hperm : S ≡ₚ cands) by apply sort_Permutation.
  split.
  - rewrite length_take, Hperm. reflexivity.
  - intros c Hc. rewrite <- Hperm, <- (take_drop 10 S) in Hc.
    apply elem_of_app in Hc as [Hc | Hc]; [left; exact Hc | right].
    assert (Hlen : (10 < length S)%nat).
    { destruct (le_lt_dec (length S) 10) as [Hle | Hlt]; [| exact Hlt].
      rewrite (drop_ge S 10 Hle) in Hc. apply elem_of_nil in Hc.
      contradiction. }
    split; [rewrite length_take; lia |].
    apply Forall_forall. intros r Hr.
    pose proof (sort_sorted res_similarity cands) as Hsorted.
    fold S in Hsorted. rewrite <- (take_drop 10 S) in Hsorted.
    exact (StronglySorted_app_1_elem_of _ _ _ r c Hsorted Hr Hc).
Qed.

Lemma search_returns_best_witness :
  searchResult [1; 0] noteA ∈ search [1; 0] [noteA; noteB]
  ∨ (length (search [1; 0] [noteA; noteB]) = 10%nat
     /\ Forall (fun r => res_similarity (searchResult [1; 0] noteA)
                         <= res_similarity r)
          (search [1; 0] [noteA; noteB])).
Proof.
  apply (proj2 (search_returns_best [1; 0] [noteA; noteB])).
  apply list_elem_of_filter. split.
  - change (0.3 < similarity (scoreNote [1; 0] noteA)).
    rewrite score_noteA. lra.
  - apply elem_of_map. exists noteA. split; [reflexivity |].
    apply list_elem_of_filter. split; [reflexivity | apply list_elem_of_here].
Defined.

Lemma chatContext_head (q : list R) (notes : list Note)
    (top : ScoredNote) (rest : list ScoredNote) :
  chatContext q notes = top :: rest -> 0.3 < similarity top.
Proof.
  unfold chatContext.
  destruct (relevantNotes q notes) as [| t r]; [discriminate |].
  case_decide as Htop; [| discriminate]. intros H. injection H as <- _.
  exact Htop.
Qed.

(** X8: when no stored non-empty embedding has the length of the query
    embedding, as is always the case for an empty query embedding, search
    returns nothing and the chat route passes no note on. *)
Theorem no_results_on_dimension_mismatch
    (queryEmbedding : list R) (notes : list Note) :
  (forall n e, n ∈ notes -> embedding n = Some e -> e ≠ [] ->
     length e ≠ length queryEmbedding) ->
  search queryEmbedding notes = [] /\ chatContext queryEmbedding notes = [].
Proof.
  intros Hdim.
  assert (Hzero : forall n, n ∈ notes -> hasEmbedding n = true ->
            cosineSimilarity queryEmbedding (default [] (embedding n)) = 0).
  { intros n Hn. unfold hasEmbedding.
    destruct (embedding n) as [[| x e] |] eqn:He; try discriminate.
    intros _. simpl. rewrite cosineSimilarity_unfold.
    destruct (decide (length queryEmbedding ≠ length (x :: e))) as [_ | Heq];
      [reflexivity |].
    exfalso. apply Heq. intros E.
    apply (Hdim n (x :: e) Hn He); [discriminate | congruence]. }
  split.
  - destruct (search queryEmbedding notes) as [| r l] eqn:Hs; [reflexivity |].
    assert (Hr : r ∈ search queryEmbedding notes)
      by (rewrite Hs; apply list_elem_of_here).
    apply in_search in Hr as (n & Hn & He & -> & Hsc).
    unfold searchResult in Hsc. simpl in Hsc.
    rewrite (Hzero n Hn He) in Hsc. lra.
  - destruct (chatContext queryEmbedding notes) as [| top rest] eqn:Hc;
      [reflexivity |].
    pose proof (chatContext_head _ _ _ _ Hc) as Hgate.
    assert (Hr : top ∈ chatContext queryEmbedding notes)
      by (rewrite Hc; apply list_elem_of_here).
    apply in_chatContext, in_relevantNotes in Hr as (n & Hn & He & ->).
    unfold scoreNote in Hgate. simpl in Hgate.
    rewrite (Hzero n Hn He) in Hgate. lra.
Qed.

Lemma no_results_on_dimension_mismatch_witness :
  search [] [noteA; noteB] = [] /\ chatContext [] [noteA; noteB] = [].
Proof.
  apply (no_results_on_dimension_mismatch [] [noteA; noteB]).
  intros n e _ _ Hne. destruct e; [contradiction | simpl; lia].
Defined.

End RankerFacts.

(** ** Further properties of the scheduler *)

Module SchedulerFacts.

Import Scheduler ReviewLog SchedulerProofs.
Local Open Scope Z_scope.

(** *** The review route and the store *)

Lemma review_route_outcomes (validTimestamp : Z -> bool) (now : Z)
    (user : string) (body : ReviewBody) (db : Storage) :
  (fst (review_route validTimestamp now user body db) ∈ [Status400; Status404]
   /\ snd (review_route validTimestamp now user body db) = db)
  ∨ (exists fid quality card,
       body_flashcardId body = Some fid /\ body_quality body = Some quality
       /\ flashcards db !! fid = Some card
       /\ let q := Number quality in
          let card' := reviewed now card q in
          review_route validTimestamp now user body db = (Status500, db)
          ∨ review_route validTimestamp now user body db
            = (Status500,
               {| flashcards := <[fid := card']> (flashcards db);
                  reviews := reviews db |})
          ∨ review_route validTimestamp now user body db
            = (Json (Some card'),
               {| flashcards := <[fid := card']> (flashcards db);
                  reviews := reviews db
                             ++ [ {| flashcardId := fid; userId := user;
                                     quality := q; reviewedAt := now |} ] |})).
Proof.
  destruct body as [[fid |] [quality |]];
    try (left; split; [apply list_elem_of_here | reflexivity]).
  destruct (decide (fid = ""%string)) as [-> | Hne];
    [left; split; [apply list_elem_of_here | reflexivity] |].
  destruct (flashcards db !! fid) as [card |] eqn:Hcard.
  - right. exists fid, quality, card. repeat split; try assumption.
    cbv zeta.
    rewrite (review_route_found validTimestamp now user fid quality db card
               Hne Hcard).
    cbv zeta.
    destruct (int4 _ && int4 _ && validTimestamp _); [| auto].
    destruct (int4 _); auto.
  - left. unfold review_route, getFlashcard. simpl.
    destruct (decide (fid = ""%string)) as [E | _]; [contradiction |].
    rewrite Hcard.
    split; [apply list_elem_of_further, list_elem_of_here | reflexivity].
Qed.

(** X9: whatever the request and whatever dates the database takes, the
    review route creates and deletes no card, leaves every card other than
    the requested one as it was, and keeps the id, front and back of the
    requested card.  What it stores goes with its answer: on 400 and 404 the
    store is as it was; on 500 the review log is as it was; on a success
    exactly one row is appended to the review log, for the requested card,
    the quality read as a number, the demo user and the time of the
    request. *)
Theorem review_route_frame (validTimestamp : Z -> bool) (now : Z)
    (user : string) (body : ReviewBody) (db : Storage) :
  let out := review_route validTimestamp now user body db in
  (forall fid, is_Some (flashcards (snd out) !! fid)
               <-> is_Some (flashcards db !! fid))
  /\ (forall fid, body_flashcardId body ≠ Some fid ->
        flashcards (snd out) !! fid = flashcards db !! fid)
  /\ (forall fid card card',
        flashcards db !! fid = Some card ->
        flashcards (snd out) !! fid = Some card' ->
        id card' = id card /\ front card' = front card
        /\ back card' = back card)
  /\ (fst out ∈ [Status400; Status404] -> snd out = db)
  /\ (fst out = Status500 -> reviews (snd out) = reviews db)
  /\ (forall updated, fst out = Json updated ->
        exists r, reviews (snd out) = reviews db ++ [r]
                  /\ Some (flashcardId r) = body_flashcardId body
                  /\ Some (quality r) = Number <$> body_quality body
                  /\ userId r = user /\ reviewedAt r = now).
Proof.
  intros out. subst out.
  assert (Hframe : forall fid0 card0 (card1 : Flashcard) log,
    flashcards db !! fid0 = Some card0 ->
    id card1 = id card0 -> front card1 = front card0 ->
    back card1 = back card0 ->
    body_flashcardId body = Some fid0 ->
    let db' := {| flashcards := <[fid0 := card1]> (flashcards db);
                  reviews := log |} in
    (forall fid, is_Some (flashcards db' !! fid)
                 <-> is_Some (flashcards db !! fid))
    /\ (forall fid, body_flashcardId body ≠ Some fid ->
          flashcards db' !! fid = flashcards db !! fid)
    /\ (forall fid card card',
          flashcards db !! fid = Some card ->
          flashcards db' !! fid = Some card' ->
          id card' = id card /\ front card' = front card
          /\ back card' = back card)).
  { intros fid0 card0 card1 log Hcard Hid Hfront Hback Hfid db'. simpl.
    split; [| split].
    - intros fid. destruct (decide (fid0 = fid)) as [<- | Hne].
      + rewrite lookup_insert_eq, Hcard. split; eauto.
      + rewrite lookup_insert_ne by exact Hne. reflexivity.
    - intros fid Hne. apply lookup_insert_ne. congruence.
    - intros fid card card' H1.
      destruct (decide (fid0 = fid)) as [<- | Hne].
      + rewrite lookup_insert_eq. intros H2. injection H2 as <-.
        rewrite Hcard in H1. injection H1 as <-. auto.
      + rewrite lookup_insert_ne by exact Hne. rewrite H1.
        intros H2. injection H2 as <-. auto. }
  assert (Hsame :
    (forall fid, is_Some (flashcards db !! fid)
                 <-> is_Some (flashcards db !! fid))
    /\ (forall fid, body_flashcardId body ≠ Some fid ->
          flashcards db !! fid = flashcards db !! fid)
    /\ (forall fid card card',
          flashcards db !! fid = Some card ->
          flashcards db !! fid = Some card' ->
          id card' = id card /\ front card' = front card
          /\ back card' = back card)).
  { split; [reflexivity | split; [reflexivity |]].
    intros fid card card' H1 H2. rewrite H1 in H2. injection H2 as <-. auto. }
  destruct (review_route_outcomes validTimestamp now user body db)
    as [[Hans ->] | (fid0 & quality & card0 & Hfid & Hq & Hcard & Hout)].
  - destruct Hsame as (H1 & H2 & H3).
    split; [exact H1 | split; [exact H2 | split; [exact H3 |]]].
    split; [reflexivity | split; [reflexivity |]].
    intros updated Hu. rewrite Hu in Hans.
    apply elem_of_cons in Hans as [Hans | Hans]; [discriminate Hans |].
    apply list_elem_of_singleton in Hans. discriminate Hans.
  - cbv zeta in Hout. destruct Hout as [-> | [-> | ->]]; simpl.
    + destruct Hsame as (H1 & H2 & H3).
      split; [exact H1 | split; [exact H2 | split; [exact H3 |]]].
      split; [reflexivity | split; [reflexivity | discriminate]].
    + destruct (Hframe fid0 card0 (reviewed now card0 (Number quality))
                  (reviews db) Hcard eq_refl eq_refl eq_refl Hfid)
        as (H1 & H2 & H3).
      split; [exact H1 | split; [exact H2 | split; [exact H3 |]]].
      split; [| split; [reflexivity | discriminate]].
      intros Hans.
      apply elem_of_cons in Hans as [Hans | Hans]; [discriminate Hans |].
      apply list_elem_of_singleton in Hans. discriminate Hans.
    + destruct (Hframe fid0 card0 (reviewed now card0 (Number quality))
                  (reviews db
                   ++ [ {| flashcardId := fid0; userId := user;
                           quality := Number quality; reviewedAt := now |} ])
                  Hcard eq_refl eq_refl eq_refl Hfid)
        as (H1 & H2 & H3).
      split; [exact H1 | split; [exact H2 | split; [exact H3 |]]].
      split; [| split; [discriminate |]].
      * intros Hans.
        apply elem_of_cons in Hans as [Hans | Hans]; [discriminate Hans |].
        apply list_elem_of_singleton in Hans. discriminate Hans.
      * intros updated _. eexists. split; [reflexivity |]. simpl.
        rewrite Hfid, Hq. simpl. auto.
Qed.

Lemma review_route_frame_witness :
  let card := {| id := "c1"; front := "f"; back := "b"; sr := default_state;
                 nextReview := 0; lastReviewed := None |} in
  let db := {| flashcards := {[ "c1"%string := card ]}; reviews := [] |} in
  snd (review_route fourDigitYear 1000 "demo"
         {| body_flashcardId := Some "c2"%string;
            body_quality := Some (JsonNumber 4) |} db) = db
  /\ reviews
       (snd (review_route fourDigitYear 1000 "demo"
               {| body_flashcardId := Some "c1"%string;
                  body_quality := Some (JsonNumber 3000000000) |} db)) = [].
Proof.
  intros card db. split.
  - apply (proj1 (proj2 (proj2 (proj2
             (review_route_frame fourDigitYear 1000 "demo"
                {| body_flashcardId := Some "c2"%string;
                   body_quality := Some (JsonNumber 4) |} db))))).
    apply list_elem_of_further, list_elem_of_here.
  - apply (proj1 (proj2 (proj2 (proj2 (proj2
             (review_route_frame fourDigitYear 1000 "demo"
                {| body_flashcardId := Some "c1"%string;
                   body_quality := Some (JsonNumber 3000000000) |} db)))))).
    reflexivity.
Defined.

(** *** The ease factor, button by button *)

(** X10: for a card whose ease factor respects the floor, quality 5 adds
    exactly 0.1 to the ease factor, quality 4 leaves it unchanged, and
    qualities 3, 2, 1 and 0 subtract 0.14, 0.32, 0.54 and 0.8, stopping at
    1.3; no review with a quality up to 5 raises it by more than 0.1. *)
Theorem ease_adjustment_by_quality (s : RepetitionState) :
  (1.3 <= easeFactor s)%Q ->
  easeFactor (sm2 s 5) == easeFactor s + 0.1
  /\ easeFactor (sm2 s 4) == easeFactor s
  /\ easeFactor (sm2 s 3) == Qmax 1.3 (easeFactor s - 0.14)
  /\ easeFactor (sm2 s 2) == Qmax 1.3 (easeFactor s - 0.32)
  /\ easeFactor (sm2 s 1) == Qmax 1.3 (easeFactor s - 0.54)
  /\ easeFactor (sm2 s 0) == Qmax 1.3 (easeFactor s - 0.8)
  /\ (forall q, q <= 5 -> (easeFactor (sm2 s q) <= easeFactor s + 0.1)%Q).
Proof.
  intros He. rewrite !sm2_easeFactor. unfold inject_Z.
  repeat split.
  - rewrite Q.max_r by Lqa.lra. Lqa.lra.
  - rewrite Q.max_r by Lqa.lra. Lqa.lra.
  - apply Q.max_compat; [reflexivity | Lqa.lra].
  - apply Q.max_compat; [reflexivity | Lqa.lra].
  - apply Q.max_compat; [reflexivity | Lqa.lra].
  - apply Q.max_compat; [reflexivity | Lqa.lra].
  - intros q Hq. rewrite sm2_easeFactor.
    apply Q.max_lub; [Lqa.lra |].
    pose proof (ease_delta_mono (inject_Z q) 5) as Hm.
    rewrite Zle_Qle in Hq. change (inject_Z 5) with 5%Q in Hq.
    specialize (Hm Hq ltac:(Lqa.lra)). Lqa.lra.
Qed.

Lemma ease_adjustment_by_quality_witness :
  easeFactor (sm2 default_state 5) == 2.6
  /\ easeFactor (sm2 default_state 4) == 2.5.
Proof.
  destruct (ease_adjustment_by_quality default_state) as (H5 & H4 & _).
  - vm_compute. discriminate.
  - split; [rewrite H5 | rewrite H4]; reflexivity.
Defined.

(** X20: a card whose ease factor is at the floor 1.3 stays there after a
    review with any quality up to 4; only quality 5 lifts it, to 1.4. *)
Theorem ease_floor_absorbing (s : RepetitionState) (q : Z) :
  easeFactor s == 1.3 ->
  (q <= 4 -> easeFactor (sm2 s q) == 1.3)
  /\ easeFactor (sm2 s 5) == 1.4.
Proof.
  intros He. rewrite !sm2_easeFactor. split.
  - intros Hq. apply Q.max_l.
    pose proof (ease_delta_mono (inject_Z q) 4) as Hm.
    rewrite Zle_Qle in Hq. change (inject_Z 4) with 4%Q in Hq.
    specialize (Hm Hq ltac:(Lqa.lra)). Lqa.lra.
  - unfold inject_Z. rewrite Q.max_r by Lqa.lra. Lqa.lra.
Qed.

Lemma ease_floor_absorbing_witness :
  easeFactor (sm2 {| easeFactor := 1.3; interval := 1; repetitions := 0 |} 3)
  == 1.3.
Proof.
  apply (ease_floor_absorbing
           {| easeFactor := 1.3; interval := 1; repetitions := 0 |} 3).
  - reflexivity.
  - lia.
Defined.

(** *** Intervals along a review history *)

Lemma Math_round_scale_ge (i : Z) (e : Q) :
  0 <= i -> (1.3 <= e)%Q -> i <= Math_round (inject_Z i * e).
Proof.
  intros Hi He. unfold Math_round.
  rewrite <- (Qfloor_Z i) at 1. apply Qfloor_resp_le.
  rewrite Zle_Qle in Hi. change (inject_Z 0) with 0%Q in Hi. Lqa.nra.
Qed.

Lemma Math_round_scale_gt (i : Z) (e : Q) :
  2 <= i -> (1.3 <= e)%Q -> i + 1 <= Math_round (inject_Z i * e).
Proof.
  intros Hi He. unfold Math_round.
  rewrite <- (Qfloor_Z (i + 1)). apply Qfloor_resp_le.
  rewrite inject_Z_plus. rewrite Zle_Qle in Hi.
  change (inject_Z 2) with 2%Q in Hi. change (inject_Z 1) with 1%Q.
  Lqa.nra.
Qed.

Lemma reachable_shape_aux (s : RepetitionState) :
  reachable s ->
  0 <= repetitions s
  /\ (repetitions s = 0 -> interval s = 0 ∨ interval s = 1)
  /\ (repetitions s = 1 -> interval s = 1)
  /\ (repetitions s = 2 -> interval s = 6)
  /\ (3 <= repetitions s -> 8 <= interval s).
Proof.
  induction 1 as [| s q Hs (Hr & H0 & H1 & H2 & H3) Hq].
  - simpl. repeat split; intros; lia.
  - pose proof (reachable_scheduled s Hs) as [He _].
    destruct (Z_lt_le_dec q 3) as [Hlt | Hge].
    + destruct (sm2_fail s q Hlt) as [-> ->]. repeat split; intros; lia.
    + destruct (sm2_pass s q Hge) as [-> ->].
      destruct (Z.eqb_spec (repetitions s) 0) as [E0 | E0];
        [repeat split; intros; lia |].
      destruct (Z.eqb_spec (repetitions s) 1) as [E1 | E1];
        [repeat split; intros; lia |].
      repeat split; intros; try lia.
      destruct (Z.eq_dec (repetitions s) 2) as [E2 | E2].
      * rewrite (H2 E2). change 8 with (Qfloor (inject_Z 6 * 1.3 + 0.5)).
        apply Qfloor_resp_le. unfold inject_Z. Lqa.nra.
      * etransitivity; [apply H3; lia |].
        apply Math_round_scale_ge; [specialize (H3 ltac:(lia)); lia | exact He].
Qed.

(** X11: in every state a card can reach, the repetition count is not
    negative and fixes the interval: the interval is 0 or 1 at count 0
    (0 only before any review), 1 at count 1, 6 at count 2, and at least 8
    from count 3 on; the ease factor is at least 1.3. *)
Theorem reachable_shape (s : RepetitionState) :
  reachable s ->
  (1.3 <= easeFactor s)%Q
  /\ 0 <= repetitions s
  /\ (repetitions s = 0 -> s = default_state ∨ interval s = 1)
  /\ (repetitions s = 1 -> interval s = 1)
  /\ (repetitions s = 2 -> interval s = 6)
  /\ (3 <= repetitions s -> 8 <= interval s).
Proof.
  intros Hs.
  destruct (reachable_shape_aux s Hs) as (Hr & _ & H1 & H2 & H3).
  destruct (reachable_scheduled s Hs) as [He _].
  split; [exact He |]. split; [exact Hr |].
  split; [| split; [exact H1 | split; [exact H2 | exact H3]]].
  clear Hr H1 H2 H3 He. intros E.
  destruct Hs as [| s' q Hs' Hq]; [left; reflexivity | right].
  destruct (Z_lt_le_dec q 3) as [Hlt | Hge3].
  - apply (sm2_fail s' q Hlt).
  - destruct (sm2_pass s' q Hge3) as [_ Hrep].
    destruct (reachable_shape_aux s' Hs') as (Hr0 & _). lia.
Qed.

Lemma reachable_shape_witness :
  interval (sm2 (sm2 default_state 4) 3) = 6.
Proof.
  apply (reachable_shape (sm2 (sm2 default_state 4) 3)).
  - apply reachable_review; [| lia].
    apply reachable_review; [| lia]. apply reachable_default.
  - reflexivity.
Defined.

(** X12: for a card in a reachable state, a passing review never shortens
    the interval; it makes the interval strictly longer unless the card was
    just lapsed or never passed since (count 0, interval 1), where it stays
    at 1. *)
Theorem pass_never_shortens_interval (s : RepetitionState) (q : Z) :
  reachable s ->
  3 <= q ->
  interval s <= interval (sm2 s q)
  /\ (interval s < interval (sm2 s q)
      ∨ (repetitions s = 0 /\ interval s = 1 /\ interval (sm2 s q) = 1)).
Proof.
  intros Hs Hq.
  destruct (reachable_shape_aux s Hs) as (Hr & H0 & H1 & H2 & H3).
  destruct (reachable_scheduled s Hs) as [He _].
  destruct (sm2_pass s q Hq) as [-> _].
  destruct (Z.eqb_spec (repetitions s) 0) as [E0 | E0].
  { destruct (H0 E0) as [Hi | Hi]; rewrite Hi; split; lia. }
  destruct (Z.eqb_spec (repetitions s) 1) as [E1 | E1].
  { rewrite (H1 E1). split; [lia | left; lia]. }
  assert (Hbig : interval s + 1 <= Math_round (inject_Z (interval s) * easeFactor s)).
  { apply Math_round_scale_gt; [| exact He].
    destruct (Z.eq_dec (repetitions s) 2) as [E2 | E2];
      [rewrite (H2 E2); lia | specialize (H3 ltac:(lia)); lia]. }
  split; [lia | left; lia].
Qed.

Lemma pass_never_shortens_interval_witness :
  interval (sm2 (sm2 default_state 4) 4)
  <= interval (sm2 (sm2 (sm2 default_state 4) 4) 5).
Proof.
  apply (pass_never_shortens_interval (sm2 (sm2 default_state 4) 4) 5).
  - apply reachable_review; [| lia].
    apply reachable_review; [| lia]. apply reachable_default.
  - lia.
Defined.

Lemma reviewAll_snoc (s : RepetitionState) (qs : list Z) (q : Z) :
  reviewAll s (qs ++ [q]) = sm2 (reviewAll s qs) q.
Proof. unfold reviewAll. rewrite fold_left_app. reflexivity. Qed.

(** X13: after any sequence of reviews of a new card, the repetition count
    is the number of passing reviews (quality 3 or more) since the last
    failing one. *)
Theorem repetitions_count_trailing_passes (qs : list Z) :
  repetitions (reviewAll default_state qs) = leadingPasses (reverse qs).
Proof.
  induction qs as [| q qs IH] using rev_ind; [reflexivity |].
  rewrite reviewAll_snoc, reverse_app. simpl.
  destruct (Z.leb_spec 3 q) as [Hq | Hq].
  - destruct (sm2_pass (reviewAll default_state qs) q Hq) as [_ ->]. lia.
  - destruct (sm2_fail (reviewAll default_state qs) q Hq) as [_ ->].
    reflexivity.
Qed.

End SchedulerFacts.

(** ** Properties of the dashboard statistics *)

Module DashboardProofs.

Import Scheduler Dashboard.
Local Open Scope Z_scope.

Lemma dateOf_shift (now i : Z) : dateOf (now - i * msPerDay) = dateOf now - i.
Proof.
  unfold dateOf, msPerDay.
  replace (now - i * 86400000) with (now + (- i) * 86400000) by lia.
  rewrite Z.div_add by lia. lia.
Qed.

Lemma diffDays_days (prev curr : Z) :
  (getTime prev - getTime curr) `div` msPerDay = prev - curr.
Proof.
  unfold getTime, msPerDay.
  replace (prev * 86400000 - curr * 86400000) with ((prev - curr) * 86400000)
    by lia.
  apply Z.div_mul. lia.
Qed.

(** *** [dedupe] *)

Lemma elem_of_dedupe (x : Z) (dates : list Z) :
  forall seen, x ∈ dedupe seen dates <-> x ∈ dates /\ x ∉ seen.
Proof.
  induction dates as [| d dates IH]; intros seen; simpl.
  - split; [intros H | intros [H _]]; apply elem_of_nil in H; contradiction.
  - destruct (decide (d ∈ seen)) as [Hd | Hd].
    + rewrite IH, elem_of_cons. split; [tauto |].
      intros [[-> | H] Hx]; [contradiction | auto].
    + rewrite !elem_of_cons, IH, not_elem_of_cons.
      destruct (decide (x = d)) as [-> | Hne]; [tauto |]. tauto.
Qed.

Lemma length_dedupe (dates : list Z) :
  forall seen, (length (dedupe seen dates) <= length dates)%nat.
Proof.
  induction dates as [| d dates IH]; intros seen; simpl; [lia |].
  case_decide; simpl; [specialize (IH seen) | specialize (IH (d :: seen))];
    lia.
Qed.

Lemma dedupe_decreasing (dates : list Z) :
  StronglySorted (fun a b => b <= a) dates ->
  forall seen, StronglySorted (fun a b => b < a) (dedupe seen dates).
Proof.
  induction 1 as [| d dates Hs IH Hd]; intros seen; simpl; [constructor |].
  case_decide; [apply IH |].
  constructor; [apply IH |].
  apply Forall_forall. intros x Hx.
  apply elem_of_dedupe in Hx as [Hx Hseen].
  rewrite Forall_forall in Hd. specialize (Hd x Hx).
  apply not_elem_of_cons in Hseen as [Hne _]. lia.
Qed.

(** *** The streak loop *)

Lemma streakLoop_bounds (rest : list Z) :
  forall prev n,
    n <= streakLoop prev rest n <= n + Z.of_nat (length rest).
Proof.
  induction rest as [| curr rest IH]; intros prev n; simpl; [lia |].
  rewrite diffDays_days. case_decide; [| lia].
  specialize (IH curr (n + 1)). lia.
Qed.

Lemma streakLoop_sound (rest : list Z) :
  forall prev n k,
    0 <= k < streakLoop prev rest n - n -> prev - 1 - k ∈ rest.
Proof.
  induction rest as [| curr rest IH]; intros prev n k; simpl; [lia |].
  rewrite diffDays_days. case_decide as Hd; [| lia].
  intros Hk. destruct (decide (k = 0)) as [-> | Hk0].
  - replace (prev - 1 - 0) with curr by lia. apply list_elem_of_here.
  - apply list_elem_of_further.
    replace (prev - 1 - k) with (curr - 1 - (k - 1)) by lia.
    apply (IH curr (n + 1)). lia.
Qed.

Lemma streakLoop_stops (rest : list Z) :
  forall prev n,
    StronglySorted (fun a b => b < a) (prev :: rest) ->
    prev - 1 - (streakLoop prev rest n - n) ∉ rest.
Proof.
  induction rest as [| curr rest IH]; intros prev n Hs; simpl.
  - apply not_elem_of_nil.
  - rewrite diffDays_days.
    apply StronglySorted_inv in Hs as [Hs Hprev].
    pose proof Hs as Hs'. apply StronglySorted_inv in Hs' as [_ Hcurr].
    rewrite Forall_forall in Hprev, Hcurr.
    pose proof (Hprev curr (list_elem_of_here _ _)) as Hpc.
    case_decide as Hd.
    + pose proof (streakLoop_bounds rest curr (n + 1)) as Hb.
      apply not_elem_of_cons. split; [lia |].
      replace (prev - 1 - (streakLoop curr rest (n + 1) - n))
        with (curr - 1 - (streakLoop curr rest (n + 1) - (n + 1))) by lia.
      apply IH, Hs.
    + replace (prev - 1 - (n - n)) with (prev - 1) by lia.
      apply not_elem_of_cons. split; [lia |].
      intros Hin. specialize (Hcurr _ Hin). lia.
Qed.

(** *** The recent reviews *)

#[local] Instance latestFirst_trans : Transitive latestFirst.
Proof. unfold latestFirst. intros a b c Hab Hbc. lia. Qed.

#[local] Instance latestFirst_total : Total latestFirst.
Proof. unfold latestFirst. intros a b. lia. Qed.

Abbreviation reviewsOf user db :=
  (filter (fun r : Review => userId r = user) (reviews db)).

Lemma dateOf_mono (a b : Z) : a <= b -> dateOf a <= dateOf b.
Proof. intros H. unfold dateOf, msPerDay. apply Z.div_le_mono; lia. Qed.

Lemma map_sorted_dates (l : list Review) :
  StronglySorted latestFirst l ->
  StronglySorted (fun a b => b <= a) (map (fun r => dateOf (reviewedAt r)) l).
Proof.
  induction 1 as [| r l Hs IH Hr]; simpl; constructor; [exact IH |].
  rewrite Forall_forall in Hr. apply Forall_forall. intros d Hd.
  apply list_elem_of_In, in_map_iff in Hd as (r' & <- & Hr').
  apply dateOf_mono, Hr, list_elem_of_In, Hr'.
Qed.

Lemma recentReviews_sorted (user : string) (db : Storage) :
  StronglySorted (fun a b => b <= a) (recentReviews user db).
Proof.
  unfold recentReviews.
  eapply StronglySorted_app_1_l. rewrite take_drop.
  apply map_sorted_dates, StronglySorted_merge_sort; apply _.
Qed.

Lemma recentReviews_from_reviews (user : string) (db : Storage) (d : Z) :
  d ∈ recentReviews user db ->
  exists r, r ∈ reviews db /\ userId r = user /\ dateOf (reviewedAt r) = d.
Proof.
  unfold recentReviews. intros H.
  assert (Hin : d ∈ map (fun r => dateOf (reviewedAt r))
                      (merge_sort latestFirst (reviewsOf user db))).
  { rewrite <- (take_drop 30). apply elem_of_app. left. exact H. }
  apply list_elem_of_In, in_map_iff in Hin as (r & <- & Hr).
  apply list_elem_of_In in Hr. rewrite merge_sort_Permutation in Hr.
  apply list_elem_of_filter in Hr as [Hu Hr]. eauto.
Qed.

Lemma recentReviews_all (user : string) (db : Storage) (r : Review) :
  (length (reviewsOf user db) <= 30)%nat ->
  r ∈ reviews db -> userId r = user ->
  dateOf (reviewedAt r) ∈ recentReviews user db.
Proof.
  intros Hlen Hr Hu. unfold recentReviews.
  rewrite take_ge
    by (rewrite length_map, merge_sort_Permutation; exact Hlen).
  apply list_elem_of_In, in_map_iff. exists r. split; [reflexivity |].
  apply list_elem_of_In. rewrite merge_sort_Permutation.
  apply list_elem_of_filter. auto.
Qed.

Lemma length_recentReviews (user : string) (db : Storage) :
  (length (recentReviews user db) <= 30)%nat.
Proof. unfold recentReviews. apply firstn_le_length. Qed.

Lemma uniqueDates_decreasing (user : string) (db : Storage) :
  StronglySorted (fun a b => b < a) (uniqueDates (recentReviews user db)).
Proof. apply dedupe_decreasing, recentReviews_sorted. Qed.

Lemma elem_of_uniqueDates (d : Z) (dates : list Z) :
  d ∈ uniqueDates dates <-> d ∈ dates.
Proof.
  unfold uniqueDates. rewrite elem_of_dedupe. split; [tauto |].
  intros H. split; [exact H | apply not_elem_of_nil].
Qed.

(** *** The streak *)

Lemma streakOf_bounds (today : Z) (unique : list Z) :
  0 <= streakOf today unique <= Z.of_nat (length unique).
Proof.
  destruct unique as [| first rest]; simpl; [lia |].
  case_decide; [| lia].
  pose proof (streakLoop_bounds rest first 1). lia.
Qed.

Lemma streakOf_sound (today : Z) (unique : list Z) (k : Z) :
  0 <= k < streakOf today unique -> today - k ∈ unique.
Proof.
  destruct unique as [| first rest]; simpl; [lia |].
  case_decide as Hf; [subst first | lia].
  intros Hk. destruct (decide (k = 0)) as [-> | Hk0].
  - replace (today - 0) with today by lia. apply list_elem_of_here.
  - apply list_elem_of_further.
    replace (today - k) with (today - 1 - (k - 1)) by lia.
    apply (streakLoop_sound rest today 1). lia.
Qed.

Lemma streakOf_stops (today : Z) (unique : list Z) :
  StronglySorted (fun a b => b < a) unique ->
  1 <= streakOf today unique ->
  today - streakOf today unique ∉ unique.
Proof.
  destruct unique as [| first rest]; simpl; [lia |].
  case_decide as Hf; [subst first | lia].
  intros Hs _.
  pose proof (streakLoop_bounds rest today 1) as Hb.
  pose proof (streakLoop_stops rest today 1 Hs) as Hstop.
  apply not_elem_of_cons. split; [lia |].
  replace (today - streakLoop today rest 1)
    with (today - 1 - (streakLoop today rest 1 - 1)) by lia.
  exact Hstop.
Qed.

(** X15: the review streak lies between 0 and 30, and each of the days it
    counts, from today backwards, has a review of the user. *)
Theorem streak_days_have_reviews (now : Z) (user : string) (db : Storage) :
  0 <= reviewStreak now user db <= 30
  /\ (forall k, 0 <= k < reviewStreak now user db ->
        exists r, r ∈ reviews db /\ userId r = user
                  /\ dateOf (reviewedAt r) = dateOf now - k).
Proof.
  unfold reviewStreak. split.
  - pose proof (streakOf_bounds (dateOf now)
                  (uniqueDates (recentReviews user db))) as Hb.
    pose proof (length_dedupe (recentReviews user db) []) as Hd.
    pose proof (length_recentReviews user db) as Hl.
    unfold uniqueDates in *. lia.
  - intros k Hk. apply streakOf_sound in Hk.
    rewrite elem_of_uniqueDates in Hk.
    apply recentReviews_from_reviews, Hk.
Qed.

Lemma streak_days_have_reviews_witness :
  let db := {| flashcards := ∅;
               reviews := [ {| flashcardId := "c1"; userId := "demo";
                               quality := 4; reviewedAt := 1000 |} ] |} in
  exists r, r ∈ reviews db /\ userId r = "demo"%string
            /\ dateOf (reviewedAt r) = dateOf 1000 - 0.
Proof.
  intros db.
  apply (proj2 (streak_days_have_reviews 1000 "demo" db) 0).
  vm_compute. split; [discriminate | reflexivity].
Defined.

Lemma recentReviews_head (user : string) (db : Storage)
    (latest : Review) (older : list Review) :
  merge_sort latestFirst (reviewsOf user db) = latest :: older ->
  recentReviews user db
  = dateOf (reviewedAt latest)
    :: take 29 (map (fun r => dateOf (reviewedAt r)) older).
Proof. intros H. unfold recentReviews. rewrite H. reflexivity. Qed.

Lemma streakOf_positive (today : Z) (unique : list Z) :
  1 <= streakOf today unique <-> exists rest, unique = today :: rest.
Proof.
  destruct unique as [| first rest]; simpl.
  - split; [lia | intros [rest H]; discriminate H].
  - case_decide as Hf.
    + subst first. pose proof (streakLoop_bounds rest today 1).
      split; [eauto | lia].
    + split; [lia | intros [rest' H]; congruence].
Qed.

Lemma uniqueDates_head (d : Z) (dates : list Z) :
  exists rest, uniqueDates (d :: dates) = d :: rest.
Proof.
  unfold uniqueDates. simpl.
  destruct (decide (d ∈ [])) as [H | _];
    [apply elem_of_nil in H; contradiction | eauto].
Qed.

(** X16: the streak is at least 1 exactly when the user has a review dated
    today and none dated later. *)
Theorem streak_positive_iff (now : Z) (user : string) (db : Storage) :
  1 <= reviewStreak now user db <->
  (exists r, r ∈ reviews db /\ userId r = user
             /\ dateOf (reviewedAt r) = dateOf now)
  /\ (forall r, r ∈ reviews db -> userId r = user ->
        dateOf (reviewedAt r) <= dateOf now).
Proof.
  unfold reviewStreak. rewrite streakOf_positive.
  pose proof (merge_sort_Permutation latestFirst (reviewsOf user db)) as Hperm.
  pose proof (StronglySorted_merge_sort latestFirst (reviewsOf user db))
    as Hsorted.
  destruct (merge_sort latestFirst (reviewsOf user db))
    as [| latest older] eqn:Hs.
  - assert (Hnone : forall r, r ∈ reviews db -> userId r = user -> False).
    { intros r Hr Hu.
      assert (Hin : r ∈ reviewsOf user db)
        by (apply list_elem_of_filter; auto).
      rewrite <- Hperm in Hin. apply elem_of_nil in Hin. exact Hin. }
    unfold recentReviews. rewrite Hs. simpl. split.
    + intros [rest H]. discriminate H.
    + intros [(r & Hr & Hu & _) _]. destruct (Hnone r Hr Hu).
  - rewrite (recentReviews_head user db latest older Hs).
    destruct (uniqueDates_head (dateOf (reviewedAt latest))
                (take 29 (map (fun r => dateOf (reviewedAt r)) older)))
      as [rest ->].
    assert (Hlatest : latest ∈ reviews db /\ userId latest = user).
    { assert (Hin : latest ∈ latest :: older) by apply list_elem_of_here.
      rewrite Hperm in Hin. apply list_elem_of_filter in Hin. tauto. }
    assert (Hmax : forall r, r ∈ reviews db -> userId r = user ->
              dateOf (reviewedAt r) <= dateOf (reviewedAt latest)).
    { intros r Hr Hu.
      assert (Hin : r ∈ latest :: older).
      { rewrite Hperm. apply list_elem_of_filter. auto. }
      apply dateOf_mono.
      apply StronglySorted_inv in Hsorted as [_ Hall].
      apply elem_of_cons in Hin as [-> | Hin]; [lia |].
      rewrite Forall_forall in Hall. apply Hall, Hin. }
    split.
    + intros [rest' H]. injection H as Hd _. split.
      * exists latest. tauto.
      * intros r Hr Hu. rewrite <- Hd. apply Hmax; assumption.
    + intros [(r & Hr & Hu & Hd) Hle]. exists rest. f_equal.
      specialize (Hmax r Hr Hu).
      specialize (Hle latest (proj1 Hlatest) (proj2 Hlatest)). lia.
Qed.

(** X17: for a user with at most 30 reviews and a streak of at least 1, the
    day just before the days the streak counts has no review of the user:
    the streak is the full run of consecutive days ending today. *)
Theorem streak_stops_at_first_gap (now : Z) (user : string) (db : Storage) :
  (length (reviewsOf user db) <= 30)%nat ->
  1 <= reviewStreak now user db ->
  forall r, r ∈ reviews db -> userId r = user ->
    dateOf (reviewedAt r) ≠ dateOf now - reviewStreak now user db.
Proof.
  intros Hlen Hpos r Hr Hu Hd. unfold reviewStreak in *.
  apply (streakOf_stops (dateOf now) (uniqueDates (recentReviews user db)));
    [apply uniqueDates_decreasing | exact Hpos |].
  rewrite elem_of_uniqueDates, <- Hd.
  apply recentReviews_all; assumption.
Qed.

Lemma streak_stops_at_first_gap_witness :
  let r0 := {| flashcardId := "c1"; userId := "demo"; quality := 4;
               reviewedAt := 1000 |} in
  let db := {| flashcards := ∅; reviews := [r0] |} in
  dateOf (reviewedAt r0) ≠ dateOf 1000 - reviewStreak 1000 "demo" db.
Proof.
  intros r0 db.
  apply (streak_stops_at_first_gap 1000 "demo" db).
  - vm_compute. lia.
  - vm_compute. discriminate.
  - apply list_elem_of_here.
  - reflexivity.
Defined.

Lemma streak_positive_iff_witness :
  let r0 := {| flashcardId := "c1"; userId := "demo"; quality := 4;
               reviewedAt := 1000 |} in
  1 <= reviewStreak 1000 "demo" {| flashcards := ∅; reviews := [r0] |}.
Proof.
  intros r0.
  apply (proj2 (streak_positive_iff 1000 "demo"
                  {| flashcards := ∅; reviews := [r0] |})).
  split.
  - exists r0. split; [apply list_elem_of_here | split; reflexivity].
  - intros r Hr _. apply list_elem_of_singleton in Hr as ->.
    vm_compute. discriminate.
Defined.

(** *** The weekly counts *)

Abbreviation countOn dates :=
  (fun k : Z => length (filter (fun d : Z => d = k) dates)).

Lemma weeklyCounts_days (daysBefore : Z -> Z -> Z) (now : Z)
    (dates : list Z) :
  weeklyCounts daysBefore now dates
  = map (countOn dates)
      (map (fun i => dateOf (daysBefore now i)) [6; 5; 4; 3; 2; 1; 0]).
Proof. reflexivity. Qed.

Lemma count_split (k : Z) (dates : list Z) :
  (length (filter (fun d => d = k) dates)
   + length (filter (fun d => d ≠ k) dates) = length dates)%nat.
Proof.
  rewrite <- length_app.
  apply Permutation_length, (filter_app_complement (fun d => d = k)).
Qed.

Lemma counts_of_distinct_days (keys : list Z) :
  NoDup keys ->
  forall dates, (sum_list (map (countOn dates) keys) <= length dates)%nat.
Proof.
  induction 1 as [| k keys Hk Hnd IH]; intros dates; simpl; [lia |].
  assert (Hsame : map (countOn dates) keys
                  = map (countOn (filter (fun d => d ≠ k) dates)) keys).
  { apply map_ext_in. intros k' Hk'. f_equal. symmetry.
    apply list_filter_filter_l. intros d -> ->.
    apply Hk, list_elem_of_In, Hk'. }
  rewrite Hsame. specialize (IH (filter (fun d => d ≠ k) dates)).
  pose proof (count_split k dates). lia.
Qed.

Lemma filter_map_dates (k : Z) (l : list Review) :
  length (filter (fun d => d = k) (map (fun r => dateOf (reviewedAt r)) l))
  = length (filter (fun r => dateOf (reviewedAt r) = k) l).
Proof.
  induction l as [| r l IH]; simpl; [reflexivity |].
  rewrite !filter_cons. repeat case_decide; simpl; try contradiction; lia.
Qed.

Lemma count_take_le (k : Z) (n : nat) (dates : list Z) :
  (length (filter (fun d => d = k) (take n dates))
   <= length (filter (fun d => d = k) dates))%nat.
Proof.
  rewrite <- (take_drop n dates) at 2. rewrite filter_app, length_app. lia.
Qed.

Lemma count_recent_le (user : string) (db : Storage) (k : Z) :
  (countOn (recentReviews user db) k
   <= length (filter (fun r => dateOf (reviewedAt r) = k) (reviewsOf user db))
  )%nat
  /\ ((length (reviewsOf user db) <= 30)%nat ->
      countOn (recentReviews user db) k
      = length (filter (fun r => dateOf (reviewedAt r) = k)
                  (reviewsOf user db))).
Proof.
  assert (Hall : length (filter (fun d => d = k)
                   (map (fun r => dateOf (reviewedAt r))
                      (merge_sort latestFirst (reviewsOf user db))))
                 = length (filter (fun r => dateOf (reviewedAt r) = k)
                             (reviewsOf user db))).
  { rewrite filter_map_dates.
    apply Permutation_length, filter_Permutation, merge_sort_Permutation. }
  unfold recentReviews. split.
  - rewrite <- Hall. apply count_take_le.
  - intros Hlen. rewrite <- Hall.
    rewrite take_ge
      by (rewrite length_map, merge_sort_Permutation; exact Hlen).
    reflexivity.
Qed.

(** X18: the weekly chart has seven entries.  The entry at position [6 - j]
    is for the date of the instant that the server's local calendar gives
    for [j] days before now: it is the number of the user's 30 latest
    reviews with that date, so it never exceeds the number of the user's
    reviews of that date and equals it for a user with at most 30 reviews.
    When the seven dates are pairwise distinct, the seven entries add up to
    at most 30.  On a server whose local time is UTC the seven dates are the
    days from six days ago up to today, which are distinct; a daylight-saving
    change can make two of the seven dates coincide. *)
Theorem weekly_reviews_counts (daysBefore : Z -> Z -> Z) (now : Z)
    (user : string) (db : Storage) :
  let day := fun j : Z => dateOf (daysBefore now j) in
  length (weeklyReviews daysBefore now user db) = 7%nat
  /\ (forall j c, (j <= 6)%nat ->
        weeklyReviews daysBefore now user db !! (6 - j)%nat = Some c ->
        (c <= length (filter
                        (fun r => dateOf (reviewedAt r) = day (Z.of_nat j))
                        (reviewsOf user db)))%nat
        /\ ((length (reviewsOf user db) <= 30)%nat ->
            c = length (filter
                          (fun r => dateOf (reviewedAt r) = day (Z.of_nat j))
                          (reviewsOf user db))))
  /\ (NoDup (map day [6; 5; 4; 3; 2; 1; 0]) ->
      (sum_list (weeklyReviews daysBefore now user db) <= 30)%nat)
  /\ ((forall i, daysBefore now i = now - i * msPerDay) ->
      map day [6; 5; 4; 3; 2; 1; 0]
      = [dateOf now - 6; dateOf now - 5; dateOf now - 4; dateOf now - 3;
         dateOf now - 2; dateOf now - 1; dateOf now]
      /\ (sum_list (weeklyReviews daysBefore now user db) <= 30)%nat).
Proof.
  intros day. unfold weeklyReviews. rewrite weeklyCounts_days.
  fold day.
  set (days := map day [6; 5; 4; 3; 2; 1; 0]).
  assert (Hsum : NoDup days ->
            (sum_list (map (countOn (recentReviews user db)) days) <= 30)%nat).
  { intros Hnd. etransitivity; [| apply (length_recentReviews user db)].
    apply counts_of_distinct_days, Hnd. }
  split; [reflexivity |]. split; [| split; [exact Hsum |]].
  - intros j c Hj Hc.
    assert (Hcase : (j = 0 ∨ j = 1 ∨ j = 2 ∨ j = 3 ∨ j = 4 ∨ j = 5
                     ∨ j = 6)%nat) by lia.
    destruct Hcase as [-> | [-> | [-> | [-> | [-> | [-> | ->]]]]]];
      simpl in Hc; injection Hc as <-; apply count_recent_le.
  - intros Hutc.
    assert (Hdays : days
              = [dateOf now - 6; dateOf now - 5; dateOf now - 4;
                 dateOf now - 3; dateOf now - 2; dateOf now - 1; dateOf now]).
    { unfold days, day. simpl. rewrite !Hutc, !dateOf_shift.
      repeat f_equal; lia. }
    split; [exact Hdays |].
    apply Hsum. rewrite Hdays.
    generalize (dateOf now). intros today.
    repeat (apply NoDup_cons; split;
            [rewrite ?not_elem_of_cons, ?elem_of_nil; repeat split; lia |]).
    apply NoDup_nil. exact I.
Qed.

Lemma weekly_reviews_counts_witness :
  let r0 := {| flashcardId := "c1"; userId := "demo"; quality := 4;
               reviewedAt := 1000 |} in
  let db := {| flashcards := ∅; reviews := [r0] |} in
  (sum_list (weeklyReviews utcDaysBefore 1000 "demo" db) <= 30)%nat.
Proof.
  intros r0 db.
  apply (proj2 (proj2 (proj2 (weekly_reviews_counts utcDaysBefore 1000
                                "demo" db)))).
  intros i. reflexivity.
Defined.

(** *** The cut at 30 rows *)

Lemma take_all_today (today : Z) (c : nat) :
  forall dates,
    StronglySorted (fun a b => b <= a) dates ->
    Forall (fun d => d <= today) dates ->
    (c <= length (filter (fun d => d = today) dates))%nat ->
    take c dates = replicate c today.
Proof.
  induction c as [| c IH]; intros dates Hs Hle Hc; [reflexivity |].
  destruct dates as [| d dates]; [simpl in Hc; lia |].
  apply StronglySorted_inv in Hs as [Hs Hd].
  apply Forall_cons_1 in Hle as [Hdt Hle].
  rewrite filter_cons in Hc.
  destruct (decide (d = today)) as [-> | Hne].
  - simpl in *. f_equal. apply IH; [assumption | assumption | lia].
  - exfalso.
    assert (Hnone : filter (fun x => x = today) dates = []).
    { clear -Hd Hdt Hne. induction dates as [| x dates IHd]; [reflexivity |].
      apply Forall_cons_1 in Hd as [Hx Hd].
      rewrite filter_cons_False by lia. apply IHd, Hd. }
    rewrite Hnone in Hc. simpl in Hc. lia.
Qed.

Lemma dedupe_seen (d : Z) (n : nat) (seen : list Z) :
  d ∈ seen -> dedupe seen (replicate n d) = [].
Proof.
  intros Hd. induction n as [| n IH]; simpl; [reflexivity |].
  case_decide; [exact IH | contradiction].
Qed.

Lemma streakOf_one_day (today : Z) (n : nat) :
  streakOf today (uniqueDates (replicate (S n) today)) = 1.
Proof.
  unfold uniqueDates. cbn [replicate dedupe].
  destruct (decide (today ∈ [])) as [H | _];
    [apply elem_of_nil in H; contradiction |].
  rewrite dedupe_seen by apply list_elem_of_here.
  cbn [streakOf streakLoop]. case_decide; [reflexivity | contradiction].
Qed.

Lemma recentReviews_dates_le (user : string) (db : Storage) (today : Z) :
  (forall r, r ∈ reviews db -> userId r = user ->
     dateOf (reviewedAt r) <= today) ->
  Forall (fun d => d <= today)
    (map (fun r => dateOf (reviewedAt r))
       (merge_sort latestFirst (reviewsOf user db))).
Proof.
  intros Hpast. apply Forall_forall. intros d Hd.
  apply list_elem_of_In, in_map_iff in Hd as (r & <- & Hr).
  apply list_elem_of_In in Hr. rewrite merge_sort_Permutation in Hr.
  apply list_elem_of_filter in Hr as [Hu Hr]. apply Hpast; assumption.
Qed.

Lemma count_sorted_dates (user : string) (db : Storage) (today : Z) :
  length (filter (fun d => d = today)
            (map (fun r => dateOf (reviewedAt r))
               (merge_sort latestFirst (reviewsOf user db))))
  = length (filter (fun r => dateOf (reviewedAt r) = today)
              (reviewsOf user db)).
Proof.
  rewrite filter_map_dates.
  apply Permutation_length, filter_Permutation, merge_sort_Permutation.
Qed.

(** X21: only the 30 latest reviews count towards the streak.  For a user
    with 30 or more reviews dated today and none dated later, the streak is
    1, whatever was reviewed on the days before. *)
Theorem streak_sees_last_30_reviews (now : Z) (user : string) (db : Storage) :
  (30 <= length (filter (fun r => dateOf (reviewedAt r) = dateOf now)
                   (reviewsOf user db)))%nat ->
  (forall r, r ∈ reviews db -> userId r = user ->
     dateOf (reviewedAt r) <= dateOf now) ->
  reviewStreak now user db = 1.
Proof.
  intros Hcount Hpast. unfold reviewStreak.
  generalize dependent (dateOf now). intros today Hcount Hpast.
  assert (Hrecent : recentReviews user db = replicate 30 today).
  { unfold recentReviews. apply take_all_today.
    - apply map_sorted_dates, StronglySorted_merge_sort; apply _.
    - apply recentReviews_dates_le, Hpast.
    - rewrite count_sorted_dates. exact Hcount. }
  rewrite Hrecent. apply (streakOf_one_day today 29).
Qed.

Lemma streak_sees_last_30_reviews_witness :
  let today := {| flashcardId := "c1"; userId := "demo"; quality := 4;
                  reviewedAt := 86400000 |} in
  let yesterday := {| flashcardId := "c1"; userId := "demo"; quality := 4;
                      reviewedAt := 1000 |} in
  reviewStreak 86400000 "demo"
    {| flashcards := ∅; reviews := yesterday :: replicate 30 today |} = 1.
Proof.
  intros today yesterday.
  apply (streak_sees_last_30_reviews 86400000 "demo").
  - vm_compute. lia.
  - intros r Hr _. apply elem_of_cons in Hr as [-> | Hr].
    + vm_compute. discriminate.
    + apply elem_of_replicate in Hr as [-> _]. vm_compute. discriminate.
Defined.

End DashboardProofs.

(** ** Properties of the tag input *)

Module TagsProofs.

Import Tags.
Local Open Scope N_scope.

(** *** [split] *)

Lemma split_not_nil (sep : N) (s : list N) : split sep s ≠ [].
Proof.
  induction s as [| c s IH]; simpl; [discriminate |].
  case_decide; [discriminate |].
  destruct (split sep s); [contradiction | discriminate].
Qed.

Lemma split_no_sep (sep : N) (s : list N) :
  Forall (fun piece => sep ∉ piece) (split sep s).
Proof.
  induction s as [| c s IH]; simpl.
  - repeat constructor. apply not_elem_of_nil.
  - case_decide as Hc.
    + constructor; [apply not_elem_of_nil | exact IH].
    + destruct (split sep s) as [| piece rest].
      { repeat constructor. apply not_elem_of_cons.
        split; [congruence | apply not_elem_of_nil]. }
      apply Forall_cons_1 in IH as [Hp Hrest].
      constructor; [| exact Hrest].
      apply not_elem_of_cons. split; [congruence | exact Hp].
Qed.

Lemma split_piece (sep : N) (p : list N) :
  sep ∉ p -> forall s, split sep (p ++ sep :: s) = p :: split sep s.
Proof.
  induction p as [| c p IH]; intros Hp s; simpl.
  - case_decide; [reflexivity | contradiction].
  - apply not_elem_of_cons in Hp as [Hc Hp].
    case_decide; [congruence |]. rewrite (IH Hp). reflexivity.
Qed.

Lemma split_last_piece (sep : N) (p : list N) : sep ∉ p -> split sep p = [p].
Proof.
  induction p as [| c p IH]; intros Hp; simpl; [reflexivity |].
  apply not_elem_of_cons in Hp as [Hc Hp].
  case_decide; [congruence |]. rewrite (IH Hp). reflexivity.
Qed.

Lemma split_joinPieces (pieces : list (list N)) :
  pieces ≠ [] ->
  Forall (fun p => comma ∉ p) pieces ->
  split comma (joinPieces pieces) = pieces.
Proof.
  induction pieces as [| p rest IH]; intros Hne Hall; [contradiction |].
  apply Forall_cons_1 in Hall as [Hp Hrest].
  destruct rest as [| q rest].
  - simpl. apply split_last_piece, Hp.
  - change (joinPieces (p :: q :: rest))
      with (p ++ comma :: joinPieces (q :: rest)).
    rewrite (split_piece comma p Hp), IH; [reflexivity | discriminate | exact Hrest].
Qed.

(** *** [trim] *)

Lemma trimStart_head (s : list N) (c : N) :
  head (trimStart s) = Some c -> isWhiteSpace c = false.
Proof.
  induction s as [| d s IH]; simpl; [discriminate |].
  destruct (isWhiteSpace d) eqn:Hd; [exact IH |].
  simpl. intros H. injection H as <-. exact Hd.
Qed.

Lemma trimStart_suffix (s : list N) : trimStart s `suffix_of` s.
Proof.
  induction s as [| d s IH]; simpl; [reflexivity |].
  destruct (isWhiteSpace d); [| reflexivity].
  apply suffix_cons_r, IH.
Qed.

Lemma trimStart_blank (l s : list N) :
  blank l -> trimStart (l ++ s) = trimStart s.
Proof.
  induction 1 as [| c l Hc _ IH]; simpl; [reflexivity |].
  rewrite Hc. exact IH.
Qed.

Lemma trimStart_id (s : list N) :
  (forall c, head s = Some c -> isWhiteSpace c = false) -> trimStart s = s.
Proof.
  destruct s as [| c s]; simpl; [reflexivity |].
  intros H. rewrite (H c eq_refl). reflexivity.
Qed.

Lemma blank_reverse (l : list N) : blank l -> blank (reverse l).
Proof.
  unfold blank. rewrite !Forall_forall. intros H c Hc.
  apply H. rewrite elem_of_reverse in Hc. exact Hc.
Qed.

Lemma trimStart_all_blank (l : list N) : blank l -> trimStart l = [].
Proof.
  intros H. rewrite <- (app_nil_r l). rewrite trimStart_blank by exact H.
  reflexivity.
Qed.

Lemma trim_typed (p : Typed) :
  blank (before p) -> blank (after p) -> clean (tag p) ->
  trim (typed p) = tag p.
Proof.
  intros Hb Ha (_ & Hhead & Hlast). unfold trim, typed.
  rewrite trimStart_blank by exact Hb.
  destruct (tag p) as [| c t] eqn:Ht.
  - simpl. rewrite (trimStart_all_blank _ Ha). reflexivity.
  - rewrite (trimStart_id ((c :: t) ++ after p))
      by (simpl; intros d Hd; apply Hhead; exact Hd).
    rewrite reverse_app, trimStart_blank by (apply blank_reverse, Ha).
    rewrite trimStart_id; [apply reverse_involutive |].
    intros d Hd. rewrite head_reverse in Hd. apply Hlast, Hd.
Qed.

Lemma elem_of_trim (s : list N) (c : N) : c ∈ trim s -> c ∈ s.
Proof.
  unfold trim. intros H. rewrite elem_of_reverse in H.
  destruct (trimStart_suffix (reverse (trimStart s))) as [k1 Hk1].
  assert (H1 : c ∈ reverse (trimStart s))
    by (rewrite Hk1; apply elem_of_app; right; exact H).
  rewrite elem_of_reverse in H1.
  destruct (trimStart_suffix s) as [k2 Hk2].
  rewrite Hk2. apply elem_of_app. right. exact H1.
Qed.

Lemma trim_ends (s : list N) :
  (forall c, head (trim s) = Some c -> isWhiteSpace c = false)
  /\ (forall c, last (trim s) = Some c -> isWhiteSpace c = false).
Proof.
  unfold trim. split; intros c Hc.
  - rewrite head_reverse in Hc.
    destruct (trimStart_suffix (reverse (trimStart s))) as [k Hk].
    assert (Hlast : last (reverse (trimStart s)) = Some c).
    { rewrite Hk, last_app, Hc. reflexivity. }
    rewrite last_reverse in Hlast. apply (trimStart_head s), Hlast.
  - rewrite last_reverse in Hc.
    exact (trimStart_head _ _ Hc).
Qed.

(** *** [parseTags] *)

Lemma blank_no_comma (l : list N) : blank l -> comma ∉ l.
Proof.
  unfold blank. rewrite Forall_forall. intros H Hin.
  specialize (H comma Hin). vm_compute in H. discriminate H.
Qed.

Lemma typed_no_comma (p : Typed) :
  blank (before p) -> blank (after p) -> clean (tag p) -> comma ∉ typed p.
Proof.
  intros Hb Ha (Hc & _). unfold typed. rewrite !not_elem_of_app.
  repeat split; [apply blank_no_comma, Hb | exact Hc | apply blank_no_comma, Ha].
Qed.

Lemma joinPieces_nil (pieces : list (list N)) :
  joinPieces pieces = [] -> pieces = [] ∨ pieces = [[]].
Proof.
  destruct pieces as [| p [| q rest]]; simpl; [auto | intros ->; auto |].
  intros H. apply app_eq_nil in H as [_ H]. discriminate H.
Qed.

(** X22: every tag the create dialogs send is non-empty, contains no comma,
    and neither starts nor ends with a white-space character; an undefined
    or empty tags field gives no tag. *)
Theorem parsed_tags_are_clean (tags : option (list N)) :
  (forall t, t ∈ parseTags tags -> t ≠ [] /\ clean t)
  /\ (tags = None ∨ tags = Some [] -> parseTags tags = []).
Proof.
  split.
  - intros t. destruct tags as [[| c s] |]; simpl;
      try (intros H; apply elem_of_nil in H; contradiction).
    intros H. apply list_elem_of_filter in H as [Hne H].
    apply list_elem_of_In, in_map_iff in H as (p & <- & Hp).
    apply list_elem_of_In in Hp.
    pose proof (split_no_sep comma (c :: s)) as Hsep.
    rewrite Forall_forall in Hsep. specialize (Hsep p Hp).
    split; [exact Hne |]. split; [| apply trim_ends].
    intros Hin. apply Hsep, elem_of_trim, Hin.
  - intros [-> | ->]; reflexivity.
Qed.

Lemma parsed_tags_are_clean_witness :
  [97; 98] ≠ [] /\ clean [97; 98].
Proof.
  apply (proj1 (parsed_tags_are_clean (Some [32; 97; 98; 44; 32]))).
  vm_compute. apply list_elem_of_here.
Defined.

(** X23: when the field holds tags separated by commas, each typed as a
    run of white space, a tag without comma and without white space at its
    ends (or nothing), and another run of white space, the dialogs send
    exactly the typed tags, in order, without the empty ones. *)
Theorem parse_typed_tags (ps : list Typed) :
  Forall (fun p => blank (before p) /\ blank (after p) /\ clean (tag p)) ps ->
  parseTags (Some (joinPieces (map typed ps)))
  = filter (fun t => t ≠ []) (map tag ps).
Proof.
  intros Hall.
  assert (Htrim : map trim (map typed ps) = map tag ps).
  { rewrite map_map. apply map_ext_in. intros p Hp.
    rewrite Forall_forall in Hall.
    destruct (Hall p (proj2 (list_elem_of_In _ _) Hp)) as (Hb & Ha & Hc).
    apply trim_typed; assumption. }
  destruct (joinPieces (map typed ps)) as [| c s] eqn:Hj.
  - simpl. rewrite <- Htrim.
    destruct (joinPieces_nil _ Hj) as [-> | ->]; reflexivity.
  - unfold parseTags. rewrite <- Hj, split_joinPieces, Htrim; [reflexivity | |].
    + intros E. rewrite E in Hj. discriminate Hj.
    + apply Forall_forall. intros x Hx.
      apply list_elem_of_In, in_map_iff in Hx as (p & <- & Hp).
      rewrite Forall_forall in Hall.
      destruct (Hall p (proj2 (list_elem_of_In _ _) Hp)) as (Hb & Ha & Hc).
      apply typed_no_comma; assumption.
Qed.

Lemma parse_typed_tags_witness :
  parseTags (Some [32; 97; 44; 44; 32; 98; 32]) = [[97]; [98]].
Proof.
  apply (parse_typed_tags
           [ {| before := [32]; tag := [97]; after := [] |};
             {| before := []; tag := []; after := [] |};
             {| before := [32]; tag := [98]; after := [32] |} ]).
  repeat (apply Forall_cons; split; [| try apply Forall_nil]);
    try exact I; simpl;
    (split; [unfold blank; repeat constructor
            | split; [unfold blank; repeat constructor |]]);
    (split; [rewrite ?not_elem_of_cons; repeat split;
               try discriminate; apply not_elem_of_nil
            | split; intros c H; simpl in H; try discriminate H;
                injection H as <-; reflexivity]).
Defined.

End TagsProofs.
